(** * InstalledServiceHandler: a shallow embedding and its properties

    The development follows [src/installed_service_handler.py].  The class
    [InstalledServiceHandler] watches one service folder, debounces the
    file-system events it receives with a [threading.Timer], and drives the
    compose of the service through [python_on_whales].

    Layout:
    - strings and the parts of [str]/[pathlib] the class uses;
    - the data model: the handler object, the timers it allocates, the
      file system it lists, the docker tool it calls;
    - a state-and-exception monad in which the methods are written
      statement by statement;
    - the scheduler: caller invocations, event delivery, time passing;
    - the properties. *)

From Stdlib Require Import ZArith Ascii.
From stdpp Require Import base decidable option list strings.

Open Scope Z_scope.

(** ** Strings *)

Module Str.

(** [s.split("/")]: the pieces between the separators, never empty as a
    list: [""] splits to [[""]]. *)
Fixpoint split (sep : ascii) (s : string) : list string :=
  match s with
  | EmptyString => [EmptyString]
  | String c rest =>
      if Ascii.eqb c sep then EmptyString :: split sep rest
      else match split sep rest with
           | piece :: pieces => String c piece :: pieces
           | [] => [String c EmptyString]
           end
  end.

(** [l[-1]] and [l[-2]] of a Python sequence; [None] stands for the
    [IndexError]. *)
Definition last1 {A} (l : list A) : option A := last l.

Definition last2 {A} (l : list A) : option A :=
  match rev l with
  | _ :: x :: _ => Some x
  | _ => None
  end.

(** [x in l] for a list of strings. *)
Definition mem (x : string) (l : list string) : bool := bool_decide (x ∈ l).

Definition nonempty (s : string) : bool :=
  match s with EmptyString => false | _ => true end.

End Str.

(** ** pathlib.PurePosixPath, as far as [name] and [parts] go *)

Module Path.

(** [posixpath.splitroot] without the (always empty) drive: one leading
    slash or three and more give the root ["/"], exactly two give ["//"]. *)
Definition slash : ascii := "/"%char.

Definition splitroot (p : string) : string * string :=
  match p with
  | String c1 rest1 =>
      if Ascii.eqb c1 slash then
        match rest1 with
        | String c2 rest2 =>
            if Ascii.eqb c2 slash then
              match rest2 with
              | String c3 _ =>
                  if Ascii.eqb c3 slash then ("/", rest1) else ("//", rest2)
              | EmptyString => ("//", rest2)
              end
            else ("/", rest1)
        | EmptyString => ("/", rest1)
        end
      else ("", p)
  | EmptyString => ("", p)
  end.

(** The components after the root: empty pieces and ["."] are dropped. *)
Definition tail (p : string) : list string :=
  filter (λ x, Str.nonempty x && negb (String.eqb x "."))
         (Str.split slash (splitroot p).2).

Definition parts (p : string) : list string :=
  let root := (splitroot p).1 in
  if Str.nonempty root then root :: tail p else tail p.

Definition name (p : string) : string :=
  default "" (Str.last1 (tail p)).

End Path.

(** ** Data model *)

(** Exceptions the methods can meet.  [OrchestrationError] stands for
    whatever the docker tool raises. *)
Inductive exn :=
| FileNotFoundError
| NotADirectoryError
| IndexError
| RuntimeError
| OrchestrationError (msg : string).

Inductive outcome (A : Type) :=
| Returns (a : A)
| Raises (e : exn).
Arguments Returns {A} a.
Arguments Raises {A} e.

(** What a path names on disk; a directory carries the names of its
    immediate entries, in the order [os.listdir] reports them. *)
Inductive fsnode :=
| Missing
| RegularFile
| Directory (entries : list string).

Definition filesystem := string → fsnode.

(** [os.listdir(path)] *)
Definition listdir (fs : filesystem) (path : string) : outcome (list string) :=
  match fs path with
  | Directory entries => Returns entries
  | RegularFile => Raises NotADirectoryError
  | Missing => Raises FileNotFoundError
  end.

(** [watchdog.events.FileSystemEvent] *)
Record FileSystemEvent := {
  is_directory : bool;
  src_path : string;
  event_type : string;
}.

(** [python_on_whales.DockerClient(compose_files=...)] *)
Record DockerClient := { compose_files : list string }.

Inductive observer_state := Unstarted | Running | Halted.

(** A [threading.Timer]: the interval it was built with, the instant its
    thread was started (if it was), and its [finished] flag.  The flag is
    set by [cancel()] and by the thread once its wait is over; the model
    sets it when the wait ends, so a function that raises leaves a timer
    that never calls again, as a dead thread does. *)
Record TimerObj := {
  interval : Z;
  started : option Z;
  finished : bool;
}.

Abbreviation timer_id := nat (only parsing).

(** Time is counted in ticks of a fixed unit; [wait_seconds] is a number
    of ticks. *)
Record Handler := {
  service_path : string;
  service_name : string;
  wait_seconds : Z;
  timer : option timer_id;
  observer : observer_state;
  files : list string;
  compose_file : option string;
  docker : option DockerClient;
}.

Definition ACCEPTED_FILES : list string :=
  ["docker-compose.yaml"; "docker-compose.yml"; ".env"].
Definition ACCEPTED_EVENTS : list string :=
  ["modified"; "created"; "deleted"].

Definition container := string.

(** Calls into the docker tool. *)
Inductive call :=
| ComposeUp (files : list string) (detach : bool)
| Ps (label : string)
| ContainerStop (c : container)
| ContainerRemove (c : container)
| VolumePrune.

Inductive level := Debug | Info | Error.

(** What an execution leaves behind, oldest first. *)
Inductive obs :=
| Called (c : call)
| Logged (lvl : level) (msg : string)
| Fired (t : Z)
| Uncaught (e : exn).

(** The docker tool is outside the program: each operation answers from
    everything observed so far, and may raise. *)
Record Tool := {
  compose_up : list obs → list string → outcome unit;
  ps : list obs → string → outcome (list container);
  container_stop : list obs → container → outcome unit;
  container_remove : list obs → container → outcome unit;
  volume_prune : list obs → outcome unit;
}.

(** The world of one handler.  [reloading] lists the timer threads that
    are inside [reload_service_compose], its last statement still to
    execute. *)
Record World := {
  self : Handler;
  clock : Z;
  fs : filesystem;
  timers : list TimerObj;
  trace : list obs;
  reloading : list nat;
}.

(** Field updates. *)
Definition with_timer (t : option timer_id) (h : Handler) : Handler :=
  {| service_path := service_path h; service_name := service_name h;
     wait_seconds := wait_seconds h; timer := t; observer := observer h;
     files := files h; compose_file := compose_file h; docker := docker h |}.

Definition with_observer (o : observer_state) (h : Handler) : Handler :=
  {| service_path := service_path h; service_name := service_name h;
     wait_seconds := wait_seconds h; timer := timer h; observer := o;
     files := files h; compose_file := compose_file h; docker := docker h |}.

Definition with_compose_file (c : option string) (h : Handler) : Handler :=
  {| service_path := service_path h; service_name := service_name h;
     wait_seconds := wait_seconds h; timer := timer h; observer := observer h;
     files := files h; compose_file := c; docker := docker h |}.

Definition with_docker (d : option DockerClient) (h : Handler) : Handler :=
  {| service_path := service_path h; service_name := service_name h;
     wait_seconds := wait_seconds h; timer := timer h; observer := observer h;
     files := files h; compose_file := compose_file h; docker := d |}.

Definition with_self (h : Handler) (w : World) : World :=
  {| self := h; clock := clock w; fs := fs w; timers := timers w; trace := trace w;
     reloading := reloading w |}.

Definition with_clock (t : Z) (w : World) : World :=
  {| self := self w; clock := t; fs := fs w; timers := timers w; trace := trace w;
     reloading := reloading w |}.

Definition with_fs (f : filesystem) (w : World) : World :=
  {| self := self w; clock := clock w; fs := f; timers := timers w; trace := trace w;
     reloading := reloading w |}.

Definition with_timers (ts : list TimerObj) (w : World) : World :=
  {| self := self w; clock := clock w; fs := fs w; timers := ts; trace := trace w;
     reloading := reloading w |}.

Definition with_trace (tr : list obs) (w : World) : World :=
  {| self := self w; clock := clock w; fs := fs w; timers := timers w; trace := tr;
     reloading := reloading w |}.

Definition with_reloading (l : list nat) (w : World) : World :=
  {| self := self w; clock := clock w; fs := fs w; timers := timers w; trace := trace w;
     reloading := l |}.

(** ** The monad of method bodies

    A method runs on a world and either returns or raises; the world it
    leaves is kept in both cases, as assignments made before a [raise]
    are. *)

Definition M (A : Type) : Type := World → World * outcome A.

Definition ret {A} (a : A) : M A := λ w, (w, Returns a).

Definition bind {A B} (m : M A) (k : A → M B) : M B :=
  λ w, match m w with
       | (w', Returns a) => k a w'
       | (w', Raises e) => (w', Raises e)
       end.

Definition raise {A} (e : exn) : M A := λ w, (w, Raises e).

(** [try: body / except <those for which catches holds>: handler] *)
Definition try_except {A} (body : M A) (catches : exn → bool) (handler : M A) : M A :=
  λ w, match body w with
       | (w', Returns a) => (w', Returns a)
       | (w', Raises e) => if catches e then handler w' else (w', Raises e)
       end.

Declare Scope method_scope.
Delimit Scope method_scope with method.
Notation "x <~ m ;; k" := (bind m (λ x, k))
  (at level 100, m at next level, k at level 200, right associativity) : method_scope.
Notation "m ;;; k" := (bind m (λ _, k))
  (at level 100, k at level 200, right associativity) : method_scope.
Open Scope method_scope.

Definition get_self : M Handler := λ w, (w, Returns (self w)).
Definition modify_self (f : Handler → Handler) : M unit :=
  λ w, (with_self (f (self w)) w, Returns tt).
Definition emit (o : obs) : M unit :=
  λ w, (with_trace (trace w ++ [o]) w, Returns tt).
Definition logger (lvl : level) (msg : string) : M unit := emit (Logged lvl msg).

(** A call into the tool: recorded, then answered from the trace before it. *)
Definition invoke {A} (c : call) (answer : list obs → outcome A) : M A :=
  λ w, (with_trace (trace w ++ [Called c]) w, answer (trace w)).

Fixpoint for_each {A} (l : list A) (body : A → M unit) : M unit :=
  match l with
  | [] => ret tt
  | x :: rest => body x ;;; for_each rest body
  end.

(** [str(x)] of an optional string inside an f-string. *)
Definition fmt (o : option string) : string := default "None" o.

(** Truth value of an optional string: [None] and [""] are false. *)
Definition truthy (o : option string) : bool :=
  match o with Some s => Str.nonempty s | None => false end.

(** ** threading.Timer *)

Definition live (o : TimerObj) : bool :=
  match started o with Some _ => negb (finished o) | None => false end.

(** The instant a started timer's wait ends. *)
Definition deadline (o : TimerObj) : option Z :=
  match started o with Some t0 => Some (t0 + interval o) | None => None end.

(** The wait of a waiting timer ends by instant [t].  A thread whose wait
    ends at [t] itself may or may not have come out of it when something
    else happens at [t]; [overdue] leaves it in its wait. *)
Definition due (t : Z) (o : TimerObj) : bool :=
  live o && match deadline o with Some d => d <=? t | None => false end.

(** The wait of a waiting timer has ended before instant [t]. *)
Definition overdue (t : Z) (o : TimerObj) : bool :=
  live o && match deadline o with Some d => d <? t | None => false end.

Definition set_finished (o : TimerObj) : TimerObj :=
  {| interval := interval o; started := started o; finished := true |}.

Definition set_started (t0 : Z) (o : TimerObj) : TimerObj :=
  {| interval := interval o; started := Some t0; finished := finished o |}.

(** [Timer(interval, function)]: a fresh object, not yet started. *)
Definition Timer_new (i : Z) : M timer_id :=
  λ w, (with_timers (timers w ++ [{| interval := i; started := None; finished := false |}]) w,
        Returns (length (timers w))).

(** [t.start()] *)
Definition Timer_start (t : timer_id) : M unit :=
  λ w, (with_timers (alter (set_started (clock w)) t (timers w)) w, Returns tt).

(** [t.cancel()] *)
Definition Timer_cancel (t : timer_id) : M unit :=
  λ w, (with_timers (alter set_finished t (timers w)) w, Returns tt).

(** ** The methods of InstalledServiceHandler *)

Definition _get_compose_file_name (h : Handler) : option string :=
  if Str.mem "docker-compose.yaml" (files h) then Some "docker-compose.yaml"
  else if Str.mem "docker-compose.yml" (files h) then Some "docker-compose.yml"
  else None.

(** [_get_docker] assigns [self.compose_file] and returns the client, or
    [None] by falling off the end. *)
Definition _get_docker (h : Handler) : Handler * option DockerClient :=
  let h' := with_compose_file (_get_compose_file_name h) h in
  (h', if truthy (compose_file h')
       then Some {| compose_files := [service_path h' +:+ "/" +:+ fmt (compose_file h')] |}
       else None).

Definition __init__ (disk : filesystem) (path : string) (wait : Z) : outcome Handler :=
  let h0 := {| service_path := path;
               service_name := default "" (Str.last1 (Str.split Path.slash path));
               wait_seconds := wait;
               timer := None;
               observer := Unstarted;
               files := [];
               compose_file := None;
               docker := None |} in
  match listdir disk path with
  | Raises e => Raises e
  | Returns entries =>
      let h1 := {| service_path := service_path h0; service_name := service_name h0;
                   wait_seconds := wait_seconds h0; timer := timer h0;
                   observer := observer h0; files := entries;
                   compose_file := compose_file h0; docker := docker h0 |} in
      let '(h2, d) := _get_docker h1 in
      Returns (with_docker d h2)
  end.

(** [observer.schedule(self, self.service_path, recursive=True)] followed
    by [observer.start()].  The observer is a thread: it starts once, and
    a further [start()] is refused with [RuntimeError].  On its first
    start the watch is set up, which cannot be done on a path that is not
    there. *)
Definition observer_schedule_start : M unit :=
  λ w, match observer (self w) with
       | Unstarted =>
           match fs w (service_path (self w)) with
           | Missing => (w, Raises FileNotFoundError)
           | _ => (with_self (with_observer Running (self w)) w, Returns tt)
           end
       | _ => (w, Raises RuntimeError)
       end.

Definition is_FileNotFoundError (e : exn) : bool :=
  match e with FileNotFoundError => true | _ => false end.

Definition any_exception (e : exn) : bool := true.

Section Methods.

Variable tool : Tool.

Definition up : M unit :=
  h <~ get_self ;;
  match docker h with
  | Some client =>
      try_except
        (invoke (ComposeUp (compose_files client) true)
                (λ tr, compose_up tool tr (compose_files client)) ;;;
         logger Info (service_name h +:+ " service compose started."))
        any_exception
        (logger Error ("An error occurred, couldn't start service "
                       +:+ service_name h +:+ "."))
  | None => ret tt
  end.

Definition down : M unit :=
  h <~ get_self ;;
  match docker h with
  | Some client =>
      logger Info (service_name h +:+ " service compose stopped.") ;;;
      let label := "com.docker.compose.project.config_files="
                   +:+ service_path h +:+ "/" +:+ fmt (compose_file h) in
      containers <~ invoke (Ps label) (λ tr, ps tool tr label) ;;
      for_each containers (λ c,
        invoke (ContainerStop c) (λ tr, container_stop tool tr c) ;;;
        invoke (ContainerRemove c) (λ tr, container_remove tool tr c)) ;;;
      invoke VolumePrune (volume_prune tool)
  | None => ret tt
  end.

Definition start : M unit :=
  try_except
    (observer_schedule_start ;;;
     h <~ get_self ;;
     logger Debug (service_name h +:+ " Installed Service Handler started."))
    is_FileNotFoundError
    (h <~ get_self ;;
     logger Error ("Couldn't start a watcher for the " +:+ service_name h
                   +:+ " service, the folder no longer exists.") ;;;
     down).

Definition stop : M unit :=
  logger Debug "Installed Service Handler stopped." ;;;
  modify_self (with_observer Halted).

Definition reload_service_compose : M unit :=
  h <~ get_self ;;
  if negb (match docker h with Some _ => truthy (compose_file h) | None => false end)
  then ret tt
  else
    logger Debug (service_name h +:+ " service modified.") ;;;
    down ;;;
    modify_self (λ h, let '(h', d) := _get_docker h in with_docker d h') ;;;
    up ;;;
    modify_self (with_timer None).

(** The condition of [on_any_event], once the event is known not to be
    on a directory and its path has a parent part. *)
Definition accepted (h : Handler) (file folder kind : string) : bool :=
  Str.mem file ACCEPTED_FILES
  && String.eqb folder (service_name h)
  && Str.mem kind ACCEPTED_EVENTS.

Definition on_any_event (event : FileSystemEvent) : M unit :=
  if is_directory event then ret tt
  else
    let path := src_path event in
    let file := Path.name path in
    folder <~ match Str.last2 (Path.parts path) with
              | Some f => ret f
              | None => raise IndexError
              end ;;
    h <~ get_self ;;
    if accepted h file folder (event_type event) then
      match timer h with
      | Some t => Timer_cancel t ;;; modify_self (with_timer None)
      | None => ret tt
      end ;;;
      t <~ Timer_new (wait_seconds h) ;;
      modify_self (with_timer (Some t)) ;;;
      Timer_start t
    else ret tt.

(** [reload_service_compose] as a timer thread runs it, in two parts.
    The first goes up to [up()]; its result tells whether the last
    statement is still to come (it is not after the early [return]).  The
    second is the last statement, [self.timer = None]. *)
Definition reload_until_up : M bool :=
  h <~ get_self ;;
  if negb (match docker h with Some _ => truthy (compose_file h) | None => false end)
  then ret false
  else
    logger Debug (service_name h +:+ " service modified.") ;;;
    down ;;;
    modify_self (λ h, let '(h', d) := _get_docker h in with_docker d h') ;;;
    up ;;;
    ret true.

Definition reload_last : M unit := modify_self (with_timer None).

(** ** The scheduler

    The handler is driven from three sides, each a thread of its own: its
    owner calls [start], [stop], [up] and [down]; the observer thread
    handles the events, one after the other, while it runs; every timer
    thread calls [reload_service_compose] when its wait is over.  Nothing
    in the class makes these threads wait for one another.

    A run is a sequence of steps.  A call by the owner is a step, and so
    is the handling of one event.  A reload is two steps.  Its statements
    up to [up()] read and write nothing that [on_any_event] reads or
    writes (the timer field and the timers), and [on_any_event] logs
    nothing, so an event handled among them could as well be handled
    right after them: they are the first step, taken when the timer's
    wait ends.  The last statement, [self.timer = None], writes the timer
    field, and is the step [Finish].  Between the two the reload is in
    progress, for as long as the run says, and events are handled
    meanwhile.  Steps are not interleaved statement by statement: the
    first parts of two reloads, or of a reload and a call by the owner,
    come one after the other, and the last statement of a reload comes
    before or after the handling of an event, not inside it.  An
    exception that leaves a step is recorded and the world goes on, as
    when a thread dies.

    When a timer's wait ends at the very instant of an event, either
    thread can come first: [Deliver] handles the event after the timer
    has fired, [DeliverFirst] before. *)

Definition run_thread (m : M unit) (w : World) : World :=
  match m w with
  | (w', Returns _) => w'
  | (w', Raises e) => with_trace (trace w' ++ [Uncaught e]) w'
  end.

(** The thread of timer [i] runs [m], the first part of its reload; if
    the last statement is still to come, the thread stays in the
    reload. *)
Definition enter (i : timer_id) (m : M bool) (w : World) : World :=
  match m w with
  | (w', Returns true) => with_reloading (reloading w' ++ [i]) w'
  | (w', Returns false) => w'
  | (w', Raises e) => with_trace (trace w' ++ [Uncaught e]) w'
  end.

(** The thread of timer [i] comes out of its wait if it is [ready], and
    starts the reload. *)
Definition fire_when (ready : TimerObj → bool) (i : timer_id) (w : World) : World :=
  match timers w !! i with
  | Some o =>
      if ready o then
        let at_ := Z.max (clock w) (default 0 (deadline o)) in
        let w1 := with_clock at_ (with_timers (alter set_finished i (timers w)) w) in
        enter i (emit (Fired at_) ;;; reload_until_up) w1
      else w
  | None => w
  end.

Definition fire (t : Z) (i : timer_id) (w : World) : World :=
  fire_when (due t) i w.

Definition fire_before (t : Z) (i : timer_id) (w : World) : World :=
  fire_when (overdue t) i w.

(** Time reaches instant [t]: the timers whose wait ends by [t] have
    fired. *)
Definition elapse (t : Z) (w : World) : World :=
  let w' := foldl (λ w i, fire t i w) w (seq 0 (length (timers w))) in
  with_clock (Z.max (clock w') t) w'.

(** Time reaches instant [t], and the timers whose wait ends at [t] have
    not fired yet. *)
Definition elapse_before (t : Z) (w : World) : World :=
  let w' := foldl (λ w i, fire_before t i w) w (seq 0 (length (timers w))) in
  with_clock (Z.max (clock w') t) w'.

(** The thread of timer [i], if it is in a reload, executes the last
    statement and ends. *)
Definition finish (i : timer_id) (w : World) : World :=
  if bool_decide (i ∈ reloading w)
  then run_thread reload_last
         (with_reloading (filter (λ j, j ≠ i) (reloading w)) w)
  else w.

Inductive op :=
| DoStart
| DoStop
| DoUp
| DoDown
| Deliver (t : Z) (e : FileSystemEvent)
| Elapse (t : Z)
| Mutate (disk : filesystem)
| DeliverFirst (t : Z) (e : FileSystemEvent)
| Finish (i : timer_id).

Definition step (w : World) (o : op) : World :=
  match o with
  | DoStart => run_thread start w
  | DoStop => run_thread stop w
  | DoUp => run_thread up w
  | DoDown => run_thread down w
  | Deliver t e =>
      let w' := elapse t w in
      match observer (self w') with
      | Running => run_thread (on_any_event e) w'
      | _ => w'
      end
  | Elapse t => elapse t w
  | Mutate disk => with_fs disk w
  | DeliverFirst t e =>
      let w' := elapse_before t w in
      match observer (self w') with
      | Running => run_thread (on_any_event e) w'
      | _ => w'
      end
  | Finish i => finish i w
  end.

Definition run (w : World) (ops : list op) : World := foldl step w ops.

End Methods.

(** The instants at which a timer thread called its function, and the
    calls that reached the tool. *)
Definition fires (tr : list obs) : list Z :=
  omap (λ o, match o with Fired t => Some t | _ => None end) tr.

Definition calls (tr : list obs) : list call :=
  omap (λ o, match o with Called c => Some c | _ => None end) tr.

(** The events for which [on_any_event] reaches the re-arming of the
    timer. *)
Definition qualifying (h : Handler) (e : FileSystemEvent) : bool :=
  negb (is_directory e)
  && match Str.last2 (Path.parts (src_path e)) with
     | Some folder => accepted h (Path.name (src_path e)) folder (event_type e)
     | None => false
     end.

(** The world in which the thread of timer [i], its wait over at instant
    [d], starts its call. *)
Definition fired_at (d : Z) (i : timer_id) (w : World) : World :=
  with_trace (trace w ++ [Fired d])
    (with_clock d (with_timers (alter set_finished i (timers w)) w)).

(** The world in which a timer thread, its wait over at instant [d], has
    called [reload_service_compose] and the call has come to its end
    with nothing else happening meanwhile. *)
Definition reloaded_at (tool : Tool) (d : Z) (w : World) : World :=
  run_thread (reload_service_compose tool) (with_trace (trace w ++ [Fired d]) w).

(** The guard of [reload_service_compose]: a client and a compose file. *)
Definition bound (h : Handler) : bool :=
  match docker h with Some _ => truthy (compose_file h) | None => false end.

(** The executions of the reload that got past its guard: each logs its
    debug line first. *)
Definition is_reload_line (h : Handler) (o : obs) : bool :=
  match o with
  | Logged Debug msg => String.eqb msg (service_name h +:+ " service modified.")
  | _ => false
  end.

Definition reload_runs (h : Handler) (tr : list obs) : nat :=
  length (List.filter (is_reload_line h) tr).

(** What [up] and [down] leave in the trace: calls, info and error
    lines. *)
Definition plain (o : obs) : bool :=
  match o with
  | Called _ | Logged Info _ | Logged Error _ => true
  | _ => false
  end.

Definition says_plainly (w w' : World) : Prop :=
  ∃ added, trace w' = trace w ++ added ∧ forallb plain added = true.

(** The world a qualifying event leaves behind: the timer the handler
    held (if any) is cancelled, a fresh one is appended, started at the
    current instant, and becomes the handler's timer. *)
Definition held_cancelled (w : World) : list TimerObj :=
  match timer (self w) with
  | Some t => alter set_finished t (timers w)
  | None => timers w
  end.

Definition rearmed (w : World) : World :=
  let cancelled := held_cancelled w in
  let fresh := {| interval := wait_seconds (self w); started := None; finished := false |} in
  let t := length cancelled in
  with_timers (alter (set_started (clock w)) t (cancelled ++ [fresh]))
    (with_self (with_timer (Some t) (self w)) w).

(** No timer of the world is waiting. *)
Definition idle (w : World) : Prop :=
  ∀ i o, timers w !! i = Some o → live o = false.

(** The only timer that may be waiting is the one the handler holds. *)
Definition at_most_one_live (w : World) : Prop :=
  ∀ i o, timers w !! i = Some o → live o = true → timer (self w) = Some i.

(** The handler holds a waiting timer whose wait ends at [d], and no other
    timer is waiting. *)
Definition armed_until (d : Z) (w : World) : Prop :=
  at_most_one_live w
  ∧ ∃ i o, timer (self w) = Some i ∧ timers w !! i = Some o
           ∧ live o = true ∧ deadline o = Some d.

(** No thread is inside a reload. *)
Definition no_reload_running (w : World) : Prop := reloading w = [].

(** What follows the first event of a burst, handled at [prev]: further
    qualifying events, each less than [wait_seconds] after the one before
    it, on either side of a tie, and timer threads that end if they are
    in a reload. *)
Fixpoint in_burst (h : Handler) (prev : Z) (ops : list op) : Prop :=
  match ops with
  | [] => True
  | Deliver t e :: rest | DeliverFirst t e :: rest =>
      qualifying h e = true ∧ prev ≤ t < prev + wait_seconds h ∧ in_burst h t rest
  | Finish _ :: rest => in_burst h prev rest
  | _ :: _ => False
  end.

(** The instant of the last event of a burst that began at [prev]. *)
Fixpoint burst_end (prev : Z) (ops : list op) : Z :=
  match ops with
  | [] => prev
  | Deliver t _ :: rest | DeliverFirst t _ :: rest => burst_end t rest
  | _ :: rest => burst_end prev rest
  end.

(** Two worlds in which [up], [down] and the reload see the same: the
    same observations so far, and the same handler but for its timer. *)
Definition alike (a b : World) : Prop :=
  trace a = trace b ∧ with_timer None (self a) = with_timer None (self b).

(** Two method bodies that cannot be told apart from alike worlds. *)
Definition the_same {A} (m m' : M A) : Prop :=
  ∀ a b, alike a b → alike (m a).1 (m' b).1 ∧ (m a).2 = (m' b).2.

(** One reload more, if the handler is bound. *)
Definition one_more (h : Handler) (n : nat) : nat :=
  if bound h then S n else n.

(** A method respects a relation between worlds when the world it leaves
    is always related to the one it started from. *)
Definition respects (R : World → World → Prop) {A} (m : M A) : Prop :=
  ∀ w, R w (m w).1.

(** [w'] is [w] with more observations, none of them a timer firing. *)
Definition logs_more (w w' : World) : Prop :=
  ∃ added, w' = with_trace (trace w ++ added) w ∧ fires added = [].

(** The fields no method assigns after construction. *)
Definition same_service (h h' : Handler) : Prop :=
  service_path h' = service_path h
  ∧ service_name h' = service_name h
  ∧ wait_seconds h' = wait_seconds h
  ∧ files h' = files h.

(** [w'] differs from [w] by what a reload may do: more observations, none
    of them a firing; a client and a compose file possibly rebound; the
    handler's timer possibly reset to [None]. *)
Record settled (w w' : World) : Prop := {
  settled_timers : timers w' = timers w;
  settled_clock : clock w' = clock w;
  settled_fs : fs w' = fs w;
  settled_service : same_service (self w) (self w');
  settled_observer : observer (self w') = observer (self w);
  settled_timer : timer (self w') = timer (self w) ∨ timer (self w') = None;
  settled_fires : fires (trace w') = fires (trace w);
}.

(** What every step keeps: the fields fixed at construction, and the
    absence of a client together with the calls made so far. *)
Record kept (w w' : World) : Prop := {
  kept_service : same_service (self w) (self w');
  kept_unbound :
    docker (self w) = None →
    docker (self w') = None ∧ calls (trace w') = calls (trace w);
}.

(** The client is the one it was. *)
Definition same_client (w w' : World) : Prop := docker (self w') = docker (self w).

(** What [w'] has observed beyond [w]. *)
Definition new_obs (w w' : World) : list obs := drop (length (trace w)) (trace w').

Definition is_error_line (o : obs) : bool :=
  match o with Logged Error _ => true | _ => false end.

(** [start()] went through its [except FileNotFoundError] branch: the
    error line is the only one [start] can log at that level. *)
Definition start_found_folder_missing (tool : Tool) (w : World) : bool :=
  existsb is_error_line (new_obs w (start tool w).1).

(** The world right after construction at instant [t0]. *)
Definition boot (disk : filesystem) (t0 : Z) (h : Handler) : World :=
  {| self := h; clock := t0; fs := disk; timers := []; trace := [];
     reloading := [] |}.

(** ** Sample services, tools and events *)

Module Sample.

Definition at_foo (node : fsnode) : filesystem :=
  λ p, if String.eqb p "/srv/foo" then node else Missing.

(** [/srv/foo] holding a compose file and an environment file. *)
Definition with_yaml : filesystem :=
  at_foo (Directory ["docker-compose.yaml"; ".env"]).

(** The same folder after [docker-compose.yaml] was renamed. *)
Definition with_yml : filesystem :=
  at_foo (Directory ["docker-compose.yml"; ".env"]).

(** A folder without a compose file. *)
Definition without_compose : filesystem :=
  at_foo (Directory [".env"; "README.md"]).

Definition nothing : filesystem := λ _, Missing.

Definition blank : Handler :=
  {| service_path := ""; service_name := ""; wait_seconds := 0; timer := None;
     observer := Unstarted; files := []; compose_file := None; docker := None |}.

Definition constructed (o : outcome Handler) : Handler :=
  match o with Returns h => h | Raises _ => blank end.

Definition both_files : Handler :=
  {| service_path := "/srv/foo"; service_name := "foo"; wait_seconds := 2;
     timer := None; observer := Unstarted;
     files := [".env"; "docker-compose.yml"; "docker-compose.yaml"];
     compose_file := None; docker := None |}.

(** A tool on which every operation succeeds; two containers run. *)
Definition steady : Tool :=
  {| compose_up := λ _ _, Returns tt;
     ps := λ _ _, Returns ["c1"; "c2"];
     container_stop := λ _ _, Returns tt;
     container_remove := λ _ _, Returns tt;
     volume_prune := λ _, Returns tt |}.

(** The same, except that container [c1] cannot be stopped. *)
Definition stuck_container : Tool :=
  {| compose_up := λ _ _, Returns tt;
     ps := λ _ _, Returns ["c1"; "c2"];
     container_stop := λ _ c,
       if String.eqb c "c1" then Raises (OrchestrationError "cannot stop c1")
       else Returns tt;
     container_remove := λ _ _, Returns tt;
     volume_prune := λ _, Returns tt |}.

(** A tool whose compose start fails. *)
Definition failing_up : Tool :=
  {| compose_up := λ _ _, Raises (OrchestrationError "invalid compose file");
     ps := λ _ _, Returns [];
     container_stop := λ _ _, Returns tt;
     container_remove := λ _ _, Returns tt;
     volume_prune := λ _, Returns tt |}.

Definition file_event (kind path : string) : FileSystemEvent :=
  {| is_directory := false; src_path := path; event_type := kind |}.

(** The handler of [/srv/foo], built at instant 0 while the folder holds
    [docker-compose.yaml], waiting 2 ticks. *)
Definition yaml_service : World :=
  boot with_yaml 0 (constructed (__init__ with_yaml "/srv/foo" 2)).

(** The handler of [/srv/foo] built while the folder has no compose
    file. *)
Definition unbound_service : World :=
  boot without_compose 0 (constructed (__init__ without_compose "/srv/foo" 2)).

(** The compose file is renamed to [docker-compose.yml] at instant 10;
    the observer reports the two events and the debounce runs out. *)
Definition rename_compose_file : list op :=
  [DoStart;
   Mutate with_yml;
   Deliver 10 (file_event "deleted" "/srv/foo/docker-compose.yaml");
   Deliver 10 (file_event "created" "/srv/foo/docker-compose.yml");
   Elapse 20].

(** The same handler once [start()] has returned. *)
Definition started_service : World :=
  run_thread (start steady) yaml_service.

Definition compose_modified : FileSystemEvent :=
  file_event "modified" "/srv/foo/docker-compose.yaml".

(** The handler armed by one change of the compose file at instant 0. *)
Definition armed_service : World :=
  run steady yaml_service [DoStart; Deliver 0 compose_modified].

(** One change of the compose file, then quiet. *)
Definition one_change : list op :=
  [DoStart;
   Deliver 0 (file_event "modified" "/srv/foo/docker-compose.yaml");
   Elapse 5].

(** A change of a compose file that lies in a sub-folder which is itself
    called [foo]. *)
Definition nested_event : FileSystemEvent :=
  file_event "modified" "/srv/foo/foo/docker-compose.yaml".

(** A change at instant 0, [stop()] at instant 1, then quiet. *)
Definition stop_while_armed : list op :=
  [DoStart;
   Deliver 0 (file_event "modified" "/srv/foo/docker-compose.yaml");
   Elapse 1;
   DoStop;
   Elapse 5].

(** The folder is removed after construction, before [start()]. *)
Definition folder_removed : World :=
  with_fs nothing yaml_service.

(** A compose file appears in a folder that had none. *)
Definition compose_file_appears : list op :=
  [DoStart;
   Mutate with_yaml;
   Deliver 10 (file_event "created" "/srv/foo/docker-compose.yaml");
   Elapse 20;
   DoUp].

End Sample.

(** ** Further notions *)

(** The compose file and the client are the ones the listing gives. *)
Definition resolved (h : Handler) : Prop :=
  compose_file h = _get_compose_file_name h ∧ docker h = (_get_docker h).2.

(** What a call of [start], [stop], [up] or [down] leaves alone: all of
    the handler but its observer, the timers, the clock, the disk, and
    the firings recorded. *)
Record calm (w w' : World) : Prop := {
  calm_service : same_service (self w) (self w');
  calm_docker : docker (self w') = docker (self w);
  calm_compose_file : compose_file (self w') = compose_file (self w);
  calm_timer : timer (self w') = timer (self w);
  calm_timers : timers w' = timers w;
  calm_clock : clock w' = clock w;
  calm_fs : fs w' = fs w;
  calm_fires : fires (trace w') = fires (trace w);
}.

(** A resolved handler stays bound as it is. *)
Definition fixed (w w' : World) : Prop :=
  resolved (self w) →
  same_service (self w) (self w')
  ∧ docker (self w') = docker (self w)
  ∧ compose_file (self w') = compose_file (self w).

(** The label [down] asks the tool about. *)
Definition compose_label (h : Handler) : string :=
  "com.docker.compose.project.config_files="
  +:+ service_path h +:+ "/" +:+ fmt (compose_file h).

(** The calls that stop and remove the containers of a listing, in its
    order. *)
Definition teardown (cs : list container) : list call :=
  flat_map (λ c, [ContainerStop c; ContainerRemove c]) cs.

(** A tool on which stopping, removing and pruning always succeed. *)
Definition obliging (tool : Tool) : Prop :=
  (∀ tr c, container_stop tool tr c = Returns tt)
  ∧ (∀ tr c, container_remove tool tr c = Returns tt)
  ∧ (∀ tr, volume_prune tool tr = Returns tt).

(** Events that come more than [wait] after the one before them. *)
Fixpoint apart (wait prev : Z) (evs : list (Z * FileSystemEvent)) : Prop :=
  match evs with
  | [] => True
  | (t, _) :: rest => prev + wait < t ∧ apart wait t rest
  end.

(** Events handled one by one: each is delivered, its timer fires [wait]
    later, and the reload finishes before the next event.  [n] is the
    timer the first event creates. *)
Fixpoint one_by_one (n : timer_id) (wait : Z) (evs : list (Z * FileSystemEvent))
    : list op :=
  match evs with
  | [] => []
  | (t, e) :: rest =>
      Deliver t e :: Elapse (t + wait) :: Finish n :: one_by_one (S n) wait rest
  end.

(** A step that delivers no qualifying event. *)
Definition quiet_op (h : Handler) (o : op) : Prop :=
  match o with
  | Deliver _ e | DeliverFirst _ e => qualifying h e = false
  | _ => True
  end.

(** What [pathlib] keeps as a component of a path: a piece that is
    neither empty nor ["."]. *)
Definition component (x : string) : bool :=
  Str.nonempty x && negb (String.eqb x ".").

(** A string without ["/"]. *)
Fixpoint slashless (s : string) : bool :=
  match s with
  | EmptyString => true
  | String c rest => negb (Ascii.eqb c Path.slash) && slashless rest
  end.

(** ** Further samples *)

Module Case.

(** The run of [Sample.rename_compose_file] followed by the removal of the
    whole folder. *)
Definition rename_then_remove : list op :=
  Sample.rename_compose_file ++ [Mutate Sample.nothing].

(** The handler of [/srv/foo], bound, whose folder has been removed before
    [start()]. *)
Definition bound_folder_removed : World := Sample.folder_removed.

(** The started handler after a change of the compose file at instant 0:
    the timer has fired at 2 and its reload has gone as far as [up()]. *)
Definition reload_in_progress : World :=
  run Sample.steady Sample.started_service
    [Deliver 0 Sample.compose_modified; Elapse 2].

(** What follows a change at instant 3 in that world: the reload in
    progress comes to its end, and a second change arrives at instant 4. *)
Definition burst_over_reload_end : list op :=
  [Finish 0; Deliver 4 Sample.compose_modified].

(** What follows a change at instant 0 in the started handler: a second
    change at 1, a timer thread that has nothing to end, a third change
    at 2. *)
Definition three_changes : list op :=
  [Deliver 1 Sample.compose_modified; Finish 0;
   DeliverFirst 2 Sample.compose_modified].

(** Events the handler has no use for: a compose file one level down, a
    rename reported as a move, the folder itself, another file. *)
Definition idle_chatter : list op :=
  [Deliver 1 (Sample.file_event "modified" "/srv/foo/data/docker-compose.yaml");
   Deliver 2 (Sample.file_event "moved" "/srv/foo/docker-compose.yaml");
   Deliver 3 {| is_directory := true; src_path := "/srv/foo"; event_type := "modified" |};
   Deliver 4 (Sample.file_event "modified" "/srv/foo/README.md");
   DoUp;
   Elapse 100].

(** [/srv/foo/] written with a trailing slash, holding a compose file. *)
Definition slash_disk : filesystem :=
  λ p, if String.eqb p "/srv/foo/" then Directory ["docker-compose.yaml"] else Missing.

(** Changes of the compose file of that folder, as the observer reports
    them. *)
Definition changes_under_slash : list op :=
  [DoStart;
   Deliver 1 (Sample.file_event "modified" "/srv/foo/docker-compose.yaml");
   Deliver 5 (Sample.file_event "modified" "/srv/foo//docker-compose.yaml");
   Elapse 100].

End Case.

(** * Properties *)

(** ** Binding resolution *)

Lemma mem_true x l : x ∈ l → Str.mem x l = true.
Proof. apply bool_decide_eq_true_2. Qed.

Lemma mem_false x l : x ∉ l → Str.mem x l = false.
Proof. apply bool_decide_eq_false_2. Qed.

Lemma mem_true_inv x l : Str.mem x l = true → x ∈ l.
Proof. apply bool_decide_eq_true_1. Qed.

Lemma mem_false_inv x l : Str.mem x l = false → x ∉ l.
Proof. apply bool_decide_eq_false_1. Qed.

Lemma compose_file_name_cases h :
  _get_compose_file_name h = Some "docker-compose.yaml"
  ∨ _get_compose_file_name h = Some "docker-compose.yml"
  ∨ _get_compose_file_name h = None.
Proof.
  unfold _get_compose_file_name.
  destruct (Str.mem "docker-compose.yaml" (files h)); [by left|].
  destruct (Str.mem "docker-compose.yml" (files h)); [right; by left | right; by right].
Qed.

Lemma append_cancel (p a b : string) : p +:+ a = p +:+ b → a = b.
Proof. induction p as [|c p IH]; simpl; [done|]. intros [= H]. auto. Qed.

(** C6.  With both [docker-compose.yaml] and [docker-compose.yml] in the
    listing, resolution names [docker-compose.yaml] and binds the client to
    its path; resolving again on the handler a resolution leaves gives the
    same client; and for no listing at all is [.env] the file resolved or
    the file the client is bound to. *)
Theorem first_match_resolution (h : Handler) :
  "docker-compose.yaml" ∈ files h →
  "docker-compose.yml" ∈ files h →
  _get_compose_file_name h = Some "docker-compose.yaml"
  ∧ (_get_docker h).2
    = Some {| compose_files := [service_path h +:+ "/docker-compose.yaml"] |}
  ∧ (_get_docker (_get_docker h).1).2 = (_get_docker h).2
  ∧ (∀ g : Handler,
       _get_compose_file_name g ≠ Some ".env"
       ∧ compose_file (_get_docker g).1 ≠ Some ".env"
       ∧ (_get_docker g).2 ≠ Some {| compose_files := [service_path g +:+ "/.env"] |}).
Proof.
  intros Hyaml _.
  assert (Hname : _get_compose_file_name h = Some "docker-compose.yaml").
  { unfold _get_compose_file_name. by rewrite (mem_true _ _ Hyaml). }
  split; [exact Hname|]. split; [|split].
  - unfold _get_docker. simpl. by rewrite Hname.
  - unfold _get_docker. simpl. unfold _get_compose_file_name. simpl.
    by rewrite (mem_true _ _ Hyaml).
  - intros g. split; [|split].
    + destruct (compose_file_name_cases g) as [-> | [-> | ->]]; discriminate.
    + simpl. destruct (compose_file_name_cases g) as [-> | [-> | ->]]; discriminate.
    + unfold _get_docker. simpl.
      destruct (compose_file_name_cases g) as [-> | [-> | ->]]; simpl;
        try discriminate; intros [= H]; apply append_cancel in H; discriminate.
Qed.

Lemma first_match_resolution_witness :
  _get_compose_file_name Sample.both_files = Some "docker-compose.yaml".
Proof.
  refine (proj1 (first_match_resolution Sample.both_files _ _));
    apply mem_true_inv; reflexivity.
Defined.

(** ** [up] and [down] *)

(** C7.  [up] returns normally on every world and with every tool.  The
    trace says what it did: nothing without a client; otherwise the start
    call, followed by the info line when the call returned and by the
    error line when it raised. *)
Theorem up_never_raises (tool : Tool) (w : World) :
  (up tool w).2 = Returns tt
  ∧ trace (up tool w).1
    = trace w ++
      match docker (self w) with
      | None => []
      | Some client =>
          Called (ComposeUp (compose_files client) true) ::
          match compose_up tool (trace w) (compose_files client) with
          | Returns _ =>
              [Logged Info (service_name (self w) +:+ " service compose started.")]
          | Raises _ =>
              [Logged Error ("An error occurred, couldn't start service "
                             +:+ service_name (self w) +:+ ".")]
          end
      end.
Proof.
  unfold up, bind, get_self.
  destruct (docker (self w)) as [client|]; simpl.
  - unfold try_except, bind, invoke, logger, emit, any_exception.
    destruct (compose_up tool (trace w) (compose_files client)) as [[]|e]; simpl;
      by rewrite <- app_assoc.
  - by rewrite app_nil_r.
Qed.

(** The start of the compose fails: [up] returns, with the call and the
    error line in the trace. *)
Example up_swallows_failed_start :
  (up Sample.failing_up Sample.yaml_service).2 = Returns tt
  ∧ trace (up Sample.failing_up Sample.yaml_service).1
    = [Called (ComposeUp ["/srv/foo/docker-compose.yaml"] true);
       Logged Error "An error occurred, couldn't start service foo."].
Proof. split; reflexivity. Qed.

Lemma up_without_client tool w : docker (self w) = None → up tool w = (w, Returns tt).
Proof. intros H. unfold up, bind, get_self. by rewrite H. Qed.

Lemma down_without_client tool w : docker (self w) = None → down tool w = (w, Returns tt).
Proof. intros H. unfold down, bind, get_self. by rewrite H. Qed.

Lemma init_without_compose disk path wait entries :
  disk path = Directory entries →
  "docker-compose.yaml" ∉ entries →
  "docker-compose.yml" ∉ entries →
  ∃ h, __init__ disk path wait = Returns h
       ∧ docker h = None ∧ compose_file h = None ∧ files h = entries.
Proof.
  intros Hdir Hyaml Hyml. unfold __init__, listdir. rewrite Hdir.
  unfold _get_docker, _get_compose_file_name. simpl.
  rewrite (mem_false _ _ Hyaml), (mem_false _ _ Hyml). simpl. eauto.
Qed.

(** ** What a method may change

    Most reasoning below only needs to know which parts of the world a
    method leaves alone.  Such a fact is a reflexive and transitive relation
    between the world before and the world after, and it passes through the
    combinators of the monad. *)

Section Frame.

Variable R : World → World → Prop.
Hypothesis R_refl : ∀ w, R w w.
Hypothesis R_trans : ∀ a b c, R a b → R b c → R a c.

Lemma respects_ret {A} (a : A) : respects R (ret a).
Proof. intros w. apply R_refl. Qed.

Lemma respects_raise {A} e : respects R (@raise A e).
Proof. intros w. apply R_refl. Qed.

Lemma respects_get_self : respects R get_self.
Proof. intros w. apply R_refl. Qed.

Lemma respects_bind {A B} (m : M A) (k : A → M B) :
  respects R m → (∀ a, respects R (k a)) → respects R (bind m k).
Proof.
  intros Hm Hk w. unfold bind. specialize (Hm w).
  destruct (m w) as [w' [a|e]]; simpl in *; [|done].
  eapply R_trans; [exact Hm | apply Hk].
Qed.

Lemma respects_try_except {A} (body handler : M A) catches :
  respects R body → respects R handler → respects R (try_except body catches handler).
Proof.
  intros Hb Hh w. unfold try_except. specialize (Hb w).
  destruct (body w) as [w' [a|e]]; simpl in *; [done|].
  destruct (catches e); [|done].
  eapply R_trans; [exact Hb | apply Hh].
Qed.

Lemma respects_for_each {A} (l : list A) body :
  (∀ x, respects R (body x)) → respects R (for_each l body).
Proof.
  intros Hbody. induction l as [|x l IH]; simpl.
  - apply respects_ret.
  - apply respects_bind; [apply Hbody | intros _; apply IH].
Qed.

Lemma respects_run_thread m :
  respects R m → (∀ w e, R w (with_trace (trace w ++ [Uncaught e]) w)) →
  ∀ w, R w (run_thread m w).
Proof.
  intros Hm Hunc w. unfold run_thread. specialize (Hm w).
  destruct (m w) as [w' [a|e]]; simpl in *; [done|].
  eapply R_trans; [exact Hm | apply Hunc].
Qed.

End Frame.

(** [then_ T] splits a goal on [m ;;; k] along the transitivity [T];
    [here R] settles [get_self], [ret] and [raise], which change nothing,
    by the reflexivity [R]. *)
Ltac then_ T := apply respects_bind; [apply T | |].
Ltac here R :=
  first [ apply respects_get_self, R | apply respects_ret, R | apply respects_raise, R ].

Lemma with_trace_same w : with_trace (trace w) w = w.
Proof. by destruct w. Qed.

Lemma fires_app a b : fires (a ++ b) = fires a ++ fires b.
Proof. apply omap_app. Qed.

Lemma calls_app a b : calls (a ++ b) = calls a ++ calls b.
Proof. apply omap_app. Qed.

Lemma logs_more_refl w : logs_more w w.
Proof. exists []. by rewrite app_nil_r, with_trace_same. Qed.

Lemma logs_more_trans a b c : logs_more a b → logs_more b c → logs_more a c.
Proof.
  intros (x & -> & Hx) (y & -> & Hy). exists (x ++ y). split.
  - simpl. by rewrite app_assoc.
  - by rewrite fires_app, Hx, Hy.
Qed.

Lemma logs_more_logger lvl msg : respects logs_more (logger lvl msg).
Proof. intros w. by exists [Logged lvl msg]. Qed.

Lemma logs_more_invoke {A} c (answer : list obs → outcome A) :
  respects logs_more (invoke c answer).
Proof. intros w. by exists [Called c]. Qed.

Lemma logs_more_up tool : respects logs_more (up tool).
Proof.
  unfold up. then_ logs_more_trans; [here logs_more_refl|].
  intros h. destruct (docker h); [|here logs_more_refl].
  apply respects_try_except; [apply logs_more_trans | | apply logs_more_logger].
  then_ logs_more_trans; [apply logs_more_invoke|].
  intros _. apply logs_more_logger.
Qed.

Lemma logs_more_down tool : respects logs_more (down tool).
Proof.
  unfold down. then_ logs_more_trans; [here logs_more_refl|].
  intros h. destruct (docker h); [|here logs_more_refl].
  then_ logs_more_trans; [apply logs_more_logger|]. intros _.
  then_ logs_more_trans; [apply logs_more_invoke|]. intros cs.
  then_ logs_more_trans; [|intros _; apply logs_more_invoke].
  apply respects_for_each; [apply logs_more_refl | apply logs_more_trans |].
  intros c. then_ logs_more_trans; [apply logs_more_invoke|].
  intros _. apply logs_more_invoke.
Qed.

Lemma respects_weaken {A} (R1 R2 : World → World → Prop) (m : M A) :
  (∀ w w', R1 w w' → R2 w w') → respects R1 m → respects R2 m.
Proof. intros H Hm w. apply H, Hm. Qed.

Lemma same_service_refl h : same_service h h.
Proof. by repeat split. Qed.

Lemma same_service_trans a b c : same_service a b → same_service b c → same_service a c.
Proof. unfold same_service. intros (?&?&?&?) (?&?&?&?). repeat split; congruence. Qed.

Lemma settled_refl w : settled w w.
Proof. split; auto using same_service_refl. Qed.

Lemma settled_trans a b c : settled a b → settled b c → settled a c.
Proof.
  intros [] []. split; try congruence.
  - eauto using same_service_trans.
  - destruct settled_timer1 as [H|H]; [|by right].
    rewrite H. done.
Qed.

Lemma logs_more_settled w w' : logs_more w w' → settled w w'.
Proof.
  intros (added & -> & Hq). split; simpl; auto using same_service_refl.
  by rewrite fires_app, Hq, app_nil_r.
Qed.

Lemma settled_uncaught w e : settled w (with_trace (trace w ++ [Uncaught e]) w).
Proof. apply logs_more_settled. by exists [Uncaught e]. Qed.

Lemma reload_without_client tool w :
  docker (self w) = None → reload_service_compose tool w = (w, Returns tt).
Proof. intros H. unfold reload_service_compose, bind, get_self. by rewrite H. Qed.

(** ** Construction and [start] *)

Lemma init_returns disk path wait h :
  __init__ disk path wait = Returns h →
  service_path h = path
  ∧ timer h = None
  ∧ wait_seconds h = wait
  ∧ ∃ entries, disk path = Directory entries ∧ files h = entries.
Proof.
  unfold __init__, listdir.
  destruct (disk path) as [| |entries]; try discriminate.
  intros [= <-]. simpl. repeat split. by exists entries.
Qed.

Lemma start_with_folder tool w :
  observer (self w) = Unstarted →
  fs w (service_path (self w)) ≠ Missing →
  start tool w
  = (with_trace (trace w ++ [Logged Debug (service_name (self w)
                                            +:+ " Installed Service Handler started.")])
       (with_self (with_observer Running (self w)) w), Returns tt).
Proof.
  intros Hobs H. unfold start, try_except, bind, observer_schedule_start.
  rewrite Hobs. by destruct (fs w (service_path (self w))).
Qed.

Lemma start_refused tool w :
  observer (self w) ≠ Unstarted → start tool w = (w, Raises RuntimeError).
Proof.
  intros Hobs. unfold start, try_except, bind, observer_schedule_start.
  by destruct (observer (self w)).
Qed.

(** The error line tells the branch: a handler that was never started
    logs it exactly when its folder is missing. *)
Lemma start_found_folder_missing_iff tool w :
  observer (self w) = Unstarted →
  start_found_folder_missing tool w = true ↔ fs w (service_path (self w)) = Missing.
Proof.
  intros Hobs. unfold start_found_folder_missing, new_obs. split.
  - intros Hbranch. destruct (fs w (service_path (self w))) eqn:Hnode; [done| |];
      rewrite start_with_folder in Hbranch by (done || rewrite Hnode; discriminate);
      simpl in Hbranch; rewrite drop_app_length in Hbranch; discriminate.
  - intros Hgone.
    unfold start, try_except, bind, observer_schedule_start. rewrite Hobs, Hgone.
    simpl.
    match goal with |- context [down tool ?w1] =>
      destruct (logs_more_down tool w1) as (added & Heq & _); rewrite Heq
    end.
    simpl. by rewrite <- app_assoc, drop_app_length.
Qed.

(** C10.  Constructing the handler for a path that is not on disk raises
    [FileNotFoundError]; a construction that returns was given a path
    naming a directory, whose listing became [files]; and whenever a later
    [start()] of that handler goes through its missing-folder branch, the
    folder is missing then, although it was there at construction: the disk
    has changed in between. *)
Theorem construction_requires_directory (tool : Tool) (disk : filesystem)
    (path : string) (wait : Z) :
  (disk path = Missing → __init__ disk path wait = Raises FileNotFoundError)
  ∧ (∀ h, __init__ disk path wait = Returns h →
       service_path h = path
       ∧ (∃ entries, disk path = Directory entries ∧ files h = entries)
       ∧ ∀ w, service_path (self w) = service_path h →
           start_found_folder_missing tool w = true →
           fs w path = Missing ∧ disk path ≠ Missing ∧ fs w ≠ disk).
Proof.
  split.
  - intros H. unfold __init__, listdir. by rewrite H.
  - intros h Hinit.
    destruct (init_returns _ _ _ _ Hinit) as (Hpath & _ & _ & entries & Hdir & Hfiles).
    split; [done|]. split; [eauto|].
    intros w Hw Hbranch. rewrite Hpath in Hw.
    assert (Hgone : fs w path = Missing).
    { unfold start_found_folder_missing, new_obs in Hbranch.
      assert (observer (self w) = Unstarted ∨ observer (self w) ≠ Unstarted)
        as [Hobs|Hobs] by (destruct (observer (self w)); auto).
      - destruct (fs w path) eqn:Hnode; [done| |];
          exfalso;
          rewrite start_with_folder in Hbranch by (done || rewrite Hw, Hnode; discriminate);
          simpl in Hbranch; rewrite drop_app_length in Hbranch; discriminate.
      - exfalso. rewrite start_refused in Hbranch by done.
        simpl in Hbranch. rewrite drop_all in Hbranch. discriminate. }
    split; [done|]. split; [congruence|].
    intros Heq. rewrite Heq in Hgone. congruence.
Qed.

Lemma construction_requires_directory_witness :
  __init__ Sample.nothing "/srv/foo" 2 = Raises FileNotFoundError
  ∧ fs Sample.folder_removed "/srv/foo" = Missing
  ∧ Sample.with_yaml "/srv/foo" ≠ Missing.
Proof.
  pose proof (construction_requires_directory Sample.steady Sample.nothing
                "/srv/foo" 2) as [Hraise _].
  pose proof (construction_requires_directory Sample.steady Sample.with_yaml
                "/srv/foo" 2) as [_ Hreturn].
  split; [apply Hraise; reflexivity|].
  destruct (Hreturn (Sample.constructed (__init__ Sample.with_yaml "/srv/foo" 2))
              eq_refl) as (_ & _ & Hstart).
  destruct (Hstart Sample.folder_removed eq_refl eq_refl) as (Hgone & Hthere & _).
  split; [exact Hgone | exact Hthere].
Defined.

(** ** Events *)

Lemma on_any_event_qualifying e w :
  qualifying (self w) e = true → on_any_event e w = (rearmed w, Returns tt).
Proof.
  unfold qualifying, on_any_event, rearmed, held_cancelled.
  destruct (is_directory e); [discriminate|]. simpl.
  destruct (Str.last2 (Path.parts (src_path e))) as [folder|]; [|discriminate].
  intros Hacc. unfold bind, ret, get_self. simpl. rewrite Hacc.
  by destruct (timer (self w)).
Qed.

Lemma on_any_event_ignored e w :
  qualifying (self w) e = false → (on_any_event e w).1 = w.
Proof.
  unfold qualifying, on_any_event.
  destruct (is_directory e); [done|]. simpl.
  destruct (Str.last2 (Path.parts (src_path e))) as [folder|]; [|done].
  intros Hacc. unfold bind, ret, get_self. simpl. by rewrite Hacc.
Qed.

Lemma qualifying_spec h e :
  qualifying h e = true
  ↔ is_directory e = false
    ∧ Path.name (src_path e) ∈ ACCEPTED_FILES
    ∧ Str.last2 (Path.parts (src_path e)) = Some (service_name h)
    ∧ event_type e ∈ ACCEPTED_EVENTS.
Proof.
  unfold qualifying, accepted, Str.mem.
  destruct (is_directory e); simpl.
  { split; [discriminate | by intros [? _]]. }
  destruct (Str.last2 (Path.parts (src_path e))) as [folder|].
  - rewrite !andb_true_iff, !bool_decide_eq_true, String.eqb_eq. split.
    + by intros [[? ->] ?].
    + by intros (_ & ? & [= ->] & ?).
  - split; [discriminate | by intros (_ & _ & ? & _)].
Qed.

(** ** Timers *)

Lemma live_set_finished o : live (set_finished o) = false.
Proof. unfold live. simpl. by destruct (started o). Qed.

Lemma not_live_not_due t o : live o = false → due t o = false.
Proof. unfold due. by intros ->. Qed.

Lemma idle_at_most_one_live w : idle w → at_most_one_live w.
Proof. intros H i o Hi Hlive. rewrite (H i o Hi) in Hlive. discriminate. Qed.

Lemma held_cancelled_idle w i o :
  at_most_one_live w → held_cancelled w !! i = Some o → live o = false.
Proof.
  intros Hinv. unfold held_cancelled.
  destruct (timer (self w)) as [t|] eqn:Ht.
  - destruct (decide (t = i)) as [->|Hne].
    + rewrite list_lookup_alter_eq.
      destruct (timers w !! i); [|discriminate].
      intros [= <-]. apply live_set_finished.
    + rewrite list_lookup_alter_ne by done. intros Hi.
      destruct (live o) eqn:Hlive; [|done].
      specialize (Hinv i o Hi Hlive). congruence.
  - intros Hi. destruct (live o) eqn:Hlive; [|done].
    specialize (Hinv i o Hi Hlive). congruence.
Qed.

Lemma rearmed_armed_until w :
  at_most_one_live w →
  armed_until (clock w + wait_seconds (self w)) (rearmed w).
Proof.
  intros Hinv. unfold armed_until, at_most_one_live, rearmed. simpl.
  set (c := held_cancelled w).
  set (fresh := {| interval := wait_seconds (self w); started := None; finished := false |}).
  assert (Hnew : alter (set_started (clock w)) (length c) (c ++ [fresh]) !! length c
                 = Some (set_started (clock w) fresh)).
  { rewrite list_lookup_alter_eq, lookup_app_r by lia.
    by replace (length c - length c)%nat with 0%nat by lia. }
  split.
  - intros i o Hi Hlive. f_equal.
    destruct (decide (i = length c)) as [->|Hne]; [done|].
    rewrite list_lookup_alter_ne in Hi by done.
    destruct (decide (i < length c)%nat) as [Hlt|Hge].
    + rewrite lookup_app_l in Hi by done.
      rewrite (held_cancelled_idle w i o Hinv Hi) in Hlive. discriminate.
    + rewrite lookup_ge_None_2 in Hi; [discriminate|].
      rewrite length_app. simpl. lia.
  - exists (length c), (set_started (clock w) fresh). by repeat split.
Qed.

Lemma armed_not_due d w t :
  armed_until d w → t < d →
  ∀ i o, timers w !! i = Some o → due t o = false.
Proof.
  intros (Hinv & i0 & o0 & Ht & Hi0 & _ & Hd) Hlt i o Hi.
  destruct (live o) eqn:Hlive; [|by apply not_live_not_due].
  specialize (Hinv i o Hi Hlive).
  assert (i = i0) as -> by congruence.
  assert (o = o0) as -> by congruence.
  unfold due. rewrite Hd. apply andb_false_intro2, Z.leb_gt. lia.
Qed.

Lemma idle_not_due w t : idle w → ∀ i o, timers w !! i = Some o → due t o = false.
Proof. intros H i o Hi. apply not_live_not_due. eauto. Qed.

(** ** The reload in two parts *)

(** The two parts make up the method. *)
Lemma reload_split tool w :
  reload_service_compose tool w
  = (b <~ reload_until_up tool ;; if b then reload_last else ret tt) w.
Proof.
  unfold reload_service_compose, reload_until_up, reload_last,
    bind, get_self, logger, emit, modify_self, ret.
  destruct (negb _); [reflexivity|].
  destruct (down tool _) as [w2 [[]|e]]; [|reflexivity].
  destruct (up tool _) as [w4 [[]|e]]; reflexivity.
Qed.

Lemma settled_reload_until_up tool : respects settled (reload_until_up tool).
Proof.
  unfold reload_until_up.
  then_ settled_trans; [here settled_refl|].
  intros h. destruct (negb _); [here settled_refl|].
  then_ settled_trans; [|intros _].
  { eapply respects_weaken; [apply logs_more_settled | apply logs_more_logger]. }
  then_ settled_trans; [|intros _].
  { eapply respects_weaken; [apply logs_more_settled | apply logs_more_down]. }
  then_ settled_trans; [|intros _].
  { intros w. split; simpl; auto. by repeat split. }
  then_ settled_trans; [|intros _; here settled_refl].
  eapply respects_weaken; [apply logs_more_settled | apply logs_more_up].
Qed.

Lemma reload_until_up_unbound tool w :
  bound (self w) = false → reload_until_up tool w = (w, Returns false).
Proof.
  intros H. unfold reload_until_up, bind, get_self.
  change (match docker (self w) with
          | Some _ => truthy (compose_file (self w)) | None => false end)
    with (bound (self w)).
  by rewrite H.
Qed.

Lemma settled_reloading w l : settled w (with_reloading l w).
Proof. split; simpl; auto using same_service_refl. Qed.

Lemma settled_enter i (m : M bool) w : respects settled m → settled w (enter i m w).
Proof.
  intros Hm. unfold enter. specialize (Hm w).
  destruct (m w) as [w' [[]|e]]; simpl in *.
  - eapply settled_trans; [exact Hm | apply settled_reloading].
  - exact Hm.
  - eapply settled_trans; [exact Hm | apply settled_uncaught].
Qed.

Lemma settled_reload_last : respects settled reload_last.
Proof. intros w. split; simpl; auto. by repeat split. Qed.

Lemma settled_finish i w : settled w (finish i w).
Proof.
  unfold finish. destruct (bool_decide _); [|apply settled_refl].
  eapply settled_trans; [apply settled_reloading|].
  apply (respects_run_thread settled settled_trans);
    [apply settled_reload_last | apply settled_uncaught].
Qed.

Lemma reloading_reload_until_up tool w :
  reloading (reload_until_up tool w).1 = reloading w.
Proof.
  set (R := λ a b : World, reloading b = reloading a).
  assert (HR : ∀ a b c, R a b → R b c → R a c) by (unfold R; congruence).
  assert (Hlogs : ∀ a b, logs_more a b → R a b) by (by intros a b (x & -> & _)).
  assert (H : respects R (reload_until_up tool)); [|exact (H w)].
  unfold reload_until_up.
  then_ HR; [by here (λ a : World, eq_refl (reloading a))|].
  intros h. destruct (negb _); [by here (λ a : World, eq_refl (reloading a))|].
  then_ HR; [|intros _].
  { eapply respects_weaken; [exact Hlogs | apply logs_more_logger]. }
  then_ HR; [|intros _].
  { eapply respects_weaken; [exact Hlogs | apply logs_more_down]. }
  then_ HR; [by intros a | intros _].
  then_ HR; [|intros _].
  { eapply respects_weaken; [exact Hlogs | apply logs_more_up]. }
  by here (λ a : World, eq_refl (reloading a)).
Qed.

Lemma finish_nothing i w : no_reload_running w → finish i w = w.
Proof. unfold no_reload_running, finish. by intros ->. Qed.

(** A reload that comes to its end before anything else happens is the
    method, run as one call. *)
Lemma reload_at_once tool i w :
  no_reload_running w →
  finish i (enter i (reload_until_up tool) w)
  = run_thread (reload_service_compose tool) w.
Proof.
  unfold no_reload_running. intros Hnone.
  unfold run_thread. rewrite reload_split. unfold bind, enter.
  pose proof (reloading_reload_until_up tool w) as Hr. rewrite Hnone in Hr.
  destruct (reload_until_up tool w) as [w' [[]|e]]; simpl in Hr.
  - unfold finish. simpl. rewrite Hr. simpl.
    rewrite bool_decide_eq_true_2 by (by apply list_elem_of_singleton).
    rewrite filter_cons_False by (intros H; by apply H).
    unfold run_thread, reload_last, modify_self. simpl.
    destruct w'. simpl in *. by subst.
  - by rewrite finish_nothing.
  - by rewrite finish_nothing.
Qed.

(** ** Time passing *)

Lemma fire_when_skip tool ready i w :
  (∀ o, timers w !! i = Some o → ready o = false) → fire_when tool ready i w = w.
Proof.
  intros H. unfold fire_when. destruct (timers w !! i) as [o|]; [|done].
  by rewrite (H o eq_refl).
Qed.

Lemma foldl_fire_when_skip tool ready ids w :
  (∀ i o, timers w !! i = Some o → ready o = false) →
  foldl (λ w i, fire_when tool ready i w) w ids = w.
Proof.
  intros H. induction ids as [|i ids IH]; simpl; [done|].
  rewrite fire_when_skip by eauto. exact IH.
Qed.

Lemma fire_skip tool t i w :
  (∀ o, timers w !! i = Some o → due t o = false) → fire tool t i w = w.
Proof. apply fire_when_skip. Qed.

Lemma foldl_fire_skip tool t ids w :
  (∀ i o, timers w !! i = Some o → due t o = false) →
  foldl (λ w i, fire tool t i w) w ids = w.
Proof. apply foldl_fire_when_skip. Qed.

Lemma elapse_quiet tool t w :
  (∀ i o, timers w !! i = Some o → due t o = false) →
  elapse tool t w = with_clock (Z.max (clock w) t) w.
Proof. intros H. unfold elapse. by rewrite foldl_fire_skip. Qed.

Lemma overdue_due t o : overdue t o = true → due t o = true.
Proof.
  unfold overdue, due. intros [Hl Hd]%andb_true_iff. rewrite Hl. simpl.
  destruct (deadline o); [|done]. apply Z.leb_le. apply Z.ltb_lt in Hd. lia.
Qed.

Lemma not_due_not_overdue t o : due t o = false → overdue t o = false.
Proof.
  intros H. destruct (overdue t o) eqn:E; [|done].
  apply overdue_due in E. congruence.
Qed.

Lemma elapse_before_quiet tool t w :
  (∀ i o, timers w !! i = Some o → due t o = false) →
  elapse_before tool t w = with_clock (Z.max (clock w) t) w.
Proof.
  intros H. unfold elapse_before, fire_before.
  rewrite foldl_fire_when_skip; [done|].
  intros i o Hi. apply not_due_not_overdue. eauto.
Qed.

(** A timer thread either stays in its wait, or leaves it, records the
    firing and starts the reload. *)
Lemma fire_when_cases tool ready i w :
  fire_when tool ready i w = w
  ∨ ∃ d, fire_when tool ready i w = enter i (reload_until_up tool) (fired_at d i w).
Proof.
  unfold fire_when. destruct (timers w !! i) as [o|]; [|by left].
  destruct (ready o); [|by left]. right. by eexists.
Qed.

Lemma fire_ready tool t i o d w :
  timers w !! i = Some o → due t o = true → deadline o = Some d → clock w ≤ d →
  fire tool t i w = enter i (reload_until_up tool) (fired_at d i w).
Proof.
  intros Hi Hdue Hd Hclock. unfold fire, fire_when. rewrite Hi, Hdue, Hd. simpl.
  by rewrite Z.max_r.
Qed.

(** The world in which the thread of timer [i] starts its call at [d]. *)
Lemma fire_due tool t i o d w :
  timers w !! i = Some o → due t o = true → deadline o = Some d → clock w ≤ d →
  settled (fired_at d i w) (fire tool t i w).
Proof.
  intros Hi Hdue Hd Hclock. rewrite (fire_ready tool t i o d w) by done.
  apply settled_enter, settled_reload_until_up.
Qed.

Lemma foldl_fire_single tool t i ids w :
  (∀ j o, j ≠ i → timers w !! j = Some o → live o = false) →
  idle (fire tool t i w) →
  i ∈ ids →
  foldl (λ w i, fire tool t i w) w ids = fire tool t i w.
Proof.
  intros Hothers Hidle. induction ids as [|j ids IH]; [by intros ?%elem_of_nil|].
  intros Hin. simpl. destruct (decide (j = i)) as [->|Hne].
  - apply foldl_fire_skip. by apply idle_not_due.
  - rewrite fire_skip by (intros o Hj; eapply not_live_not_due, Hothers; eauto).
    apply IH. by apply elem_of_cons in Hin as [->|Hin].
Qed.

(** One timer waits and its wait is over by [T]: when time reaches [T]
    its thread, and no other, has started the reload, at its deadline. *)
Lemma elapse_sole tool i o d T w :
  timers w !! i = Some o → live o = true → deadline o = Some d →
  (∀ j o', j ≠ i → timers w !! j = Some o' → live o' = false) →
  clock w ≤ d → d ≤ T →
  elapse tool T w = with_clock T (enter i (reload_until_up tool) (fired_at d i w))
  ∧ idle (elapse tool T w).
Proof.
  intros Hi Hlive Hd Hothers Hclock HT.
  assert (Hdue : due T o = true).
  { unfold due. rewrite Hlive, Hd. simpl. by apply Z.leb_le. }
  pose proof (fire_due tool T i o d w Hi Hdue Hd Hclock) as Hfire.
  assert (Hidle : idle (fire tool T i w)).
  { intros j o'. rewrite (settled_timers _ _ Hfire). simpl.
    destruct (decide (i = j)) as [<-|Hne].
    - rewrite list_lookup_alter_eq, Hi. intros [= <-]. apply live_set_finished.
    - rewrite list_lookup_alter_ne by done. apply Hothers. congruence. }
  assert (Hfold : elapse tool T w
                  = with_clock (Z.max (clock (fire tool T i w)) T) (fire tool T i w)).
  { unfold elapse. rewrite (foldl_fire_single tool T i); [done..|].
    apply elem_of_seq. apply lookup_lt_Some in Hi. lia. }
  rewrite Hfold. split; [|exact Hidle].
  rewrite (settled_clock _ _ Hfire). simpl. rewrite Z.max_r by done.
  by rewrite (fire_ready tool T i o d w).
Qed.

(** An armed world, once its deadline has passed: the one waiting timer
    has fired, at its deadline, and nothing is waiting any more. *)
Lemma elapse_armed tool d T w :
  armed_until d w → clock w ≤ d → d ≤ T →
  idle (elapse tool T w)
  ∧ clock (elapse tool T w) = T
  ∧ fires (trace (elapse tool T w)) = fires (trace w) ++ [d]
  ∧ same_service (self w) (self (elapse tool T w))
  ∧ observer (self (elapse tool T w)) = observer (self w)
  ∧ fs (elapse tool T w) = fs w.
Proof.
  intros (Hinv & i & o & Ht & Hi & Hlive & Hd) Hclock HT.
  assert (Hothers : ∀ j o', j ≠ i → timers w !! j = Some o' → live o' = false).
  { intros j o' Hne Hj. destruct (live o') eqn:Hl; [|done].
    specialize (Hinv j o' Hj Hl). congruence. }
  destruct (elapse_sole tool i o d T w Hi Hlive Hd Hothers Hclock HT) as [Heq Hidle].
  split; [exact Hidle|]. rewrite Heq.
  pose proof (settled_enter i (reload_until_up tool) (fired_at d i w)
                (settled_reload_until_up tool)) as Hfire.
  simpl. repeat split.
  - rewrite (settled_fires _ _ Hfire). simpl. by rewrite fires_app.
  - apply (settled_service _ _ Hfire).
  - apply (settled_service _ _ Hfire).
  - apply (settled_service _ _ Hfire).
  - apply (settled_service _ _ Hfire).
  - apply (settled_observer _ _ Hfire).
  - apply (settled_fs _ _ Hfire).
Qed.

(** A qualifying event delivered while nothing is due: the handler is
    armed anew, for [wait_seconds] from the instant of the event. *)
Lemma deliver_rearms tool t e w :
  at_most_one_live w →
  (∀ i o, timers w !! i = Some o → due t o = false) →
  observer (self w) = Running →
  qualifying (self w) e = true →
  clock w ≤ t →
  step tool w (Deliver t e) = rearmed (with_clock t w).
Proof.
  intros Hinv Hquiet Hobs Hq Hclock. unfold step.
  rewrite elapse_quiet by done. rewrite Z.max_r by done.
  change (observer (self (with_clock t w))) with (observer (self w)). rewrite Hobs.
  unfold run_thread. by rewrite on_any_event_qualifying.
Qed.

(** ** What a reload reads

    [up], [down] and the reload read the handler, but not its timer, and
    the answers of the tool; they never look at the timers or the
    clock. *)

Lemma alike_refl w : alike w w.
Proof. by split. Qed.

Lemma the_same_ret {A} (x : A) : the_same (ret x) (ret x).
Proof. by intros a b H. Qed.

Lemma the_same_bind {A B} (m m' : M A) (k k' : A → M B) :
  the_same m m' → (∀ x, the_same (k x) (k' x)) → the_same (bind m k) (bind m' k').
Proof.
  intros Hm Hk a b Hab. unfold bind. destruct (Hm a b Hab) as [H1 H2].
  destruct (m a) as [a' [x|e]], (m' b) as [b' [y|e']]; simpl in *; try done.
  - injection H2 as ->. by apply Hk.
  - by injection H2 as ->.
Qed.

Lemma the_same_try_except {A} (body body' handler handler' : M A) catches :
  the_same body body' → the_same handler handler' →
  the_same (try_except body catches handler) (try_except body' catches handler').
Proof.
  intros Hb Hh a b Hab. unfold try_except. destruct (Hb a b Hab) as [H1 H2].
  destruct (body a) as [a' [x|e]], (body' b) as [b' [y|e']]; simpl in *; try done.
  injection H2 as ->. destruct (catches e'); [by apply Hh | done].
Qed.

Lemma the_same_for_each {A} (l : list A) body :
  (∀ x, the_same (body x) (body x)) → the_same (for_each l body) (for_each l body).
Proof.
  intros Hbody. induction l as [|x l IH]; simpl.
  - apply the_same_ret.
  - apply the_same_bind; [apply Hbody | intros _; apply IH].
Qed.

Lemma the_same_emit o : the_same (emit o) (emit o).
Proof. intros a b [Ht Hs]. simpl. by rewrite Ht. Qed.

Lemma the_same_invoke {A} c (answer : list obs → outcome A) :
  the_same (invoke c answer) (invoke c answer).
Proof. intros a b [Ht Hs]. unfold invoke. simpl. by rewrite Ht. Qed.

Lemma the_same_reading {A} (k k' : Handler → M A) :
  (∀ h h', with_timer None h = with_timer None h' → the_same (k h) (k' h')) →
  the_same (h <~ get_self ;; k h) (h <~ get_self ;; k' h).
Proof. intros H a b Hab. unfold bind, get_self. apply H; [apply Hab | done]. Qed.

Lemma but_timer_fields h h' :
  with_timer None h = with_timer None h' →
  service_path h = service_path h' ∧ service_name h = service_name h'
  ∧ files h = files h' ∧ compose_file h = compose_file h' ∧ docker h = docker h'.
Proof. destruct h, h'. unfold with_timer. simpl. intros [= -> -> -> -> -> -> ->]. done. Qed.

Lemma the_same_up tool : the_same (up tool) (up tool).
Proof.
  unfold up. apply the_same_reading. intros h h' Hh.
  destruct (but_timer_fields h h' Hh) as (_ & -> & _ & _ & ->).
  destruct (docker h'); [|apply the_same_ret].
  apply the_same_try_except; [|apply the_same_emit].
  apply the_same_bind; [apply the_same_invoke | intros _; apply the_same_emit].
Qed.

Lemma the_same_down tool : the_same (down tool) (down tool).
Proof.
  unfold down. apply the_same_reading. intros h h' Hh.
  destruct (but_timer_fields h h' Hh) as (-> & -> & _ & -> & ->).
  destruct (docker h'); [|apply the_same_ret].
  apply the_same_bind; [apply the_same_emit | intros _].
  apply the_same_bind; [apply the_same_invoke | intros cs].
  apply the_same_bind; [|intros _; apply the_same_invoke].
  apply the_same_for_each. intros c.
  apply the_same_bind; [apply the_same_invoke | intros _; apply the_same_invoke].
Qed.

Lemma the_same_rebind :
  the_same (modify_self (λ h, let '(h', d) := _get_docker h in with_docker d h'))
           (modify_self (λ h, let '(h', d) := _get_docker h in with_docker d h')).
Proof.
  intros a b [Ht Hs]. split; [|done]. split; [exact Ht|]. simpl.
  destruct (self a), (self b). unfold with_timer in Hs. simpl in Hs.
  by injection Hs as -> -> -> -> -> -> ->.
Qed.

Lemma the_same_reload_until_up tool :
  the_same (reload_until_up tool) (reload_until_up tool).
Proof.
  unfold reload_until_up. apply the_same_reading. intros h h' Hh.
  destruct (but_timer_fields h h' Hh) as (_ & -> & _ & -> & ->).
  destruct (negb _); [apply the_same_ret|].
  apply the_same_bind; [apply the_same_emit | intros _].
  apply the_same_bind; [apply the_same_down | intros _].
  apply the_same_bind; [apply the_same_rebind | intros _].
  apply the_same_bind; [apply the_same_up | intros _; apply the_same_ret].
Qed.

(** What a timer thread has written once it has started the reload is
    what the method writes when it is called in one go, in any world
    alike. *)
Lemma enter_writes tool i v v' :
  alike v v' →
  trace (enter i (reload_until_up tool) v)
  = trace (run_thread (reload_service_compose tool) v').
Proof.
  intros Hvv. unfold run_thread. rewrite reload_split. unfold bind, enter.
  destruct (the_same_reload_until_up tool v v' Hvv) as [[Ht _] Hr].
  destruct (reload_until_up tool v) as [a [x|e]],
           (reload_until_up tool v') as [b [y|e']]; simpl in *; try done.
  - injection Hr as ->. by destruct y.
  - injection Hr as ->. by rewrite Ht.
Qed.

Lemma reloaded_at_alike tool d a b :
  alike a b → trace (reloaded_at tool d a) = trace (reloaded_at tool d b).
Proof.
  intros [Ht Hs]. unfold reloaded_at.
  rewrite <- (enter_writes tool 0 _ _ (alike_refl _)).
  apply enter_writes. split; simpl; [by rewrite Ht | exact Hs].
Qed.

(** ** What a reload writes *)

Lemma says_plainly_refl w : says_plainly w w.
Proof. exists []. by rewrite app_nil_r. Qed.

Lemma says_plainly_trans a b c : says_plainly a b → says_plainly b c → says_plainly a c.
Proof.
  intros (x & Hx & Px) (y & Hy & Py). exists (x ++ y). split.
  - by rewrite Hy, Hx, app_assoc.
  - rewrite forallb_app. by rewrite Px, Py.
Qed.

Lemma says_plainly_emit o : plain o = true → respects says_plainly (emit o).
Proof. intros H w. exists [o]. simpl. by rewrite H. Qed.

Lemma says_plainly_invoke {A} c (answer : list obs → outcome A) :
  respects says_plainly (invoke c answer).
Proof. intros w. by exists [Called c]. Qed.

Lemma says_plainly_self f : respects says_plainly (modify_self f).
Proof. intros w. exists []. simpl. by rewrite app_nil_r. Qed.

Lemma says_plainly_up tool : respects says_plainly (up tool).
Proof.
  unfold up. then_ says_plainly_trans; [here says_plainly_refl|].
  intros h. destruct (docker h); [|here says_plainly_refl].
  apply respects_try_except; [apply says_plainly_trans | | by apply says_plainly_emit].
  then_ says_plainly_trans; [apply says_plainly_invoke|].
  intros _. by apply says_plainly_emit.
Qed.

Lemma says_plainly_down tool : respects says_plainly (down tool).
Proof.
  unfold down. then_ says_plainly_trans; [here says_plainly_refl|].
  intros h. destruct (docker h); [|here says_plainly_refl].
  then_ says_plainly_trans; [by apply says_plainly_emit|]. intros _.
  then_ says_plainly_trans; [apply says_plainly_invoke|]. intros cs.
  then_ says_plainly_trans; [|intros _; apply says_plainly_invoke].
  apply respects_for_each; [apply says_plainly_refl | apply says_plainly_trans |].
  intros c. then_ says_plainly_trans; [apply says_plainly_invoke|].
  intros _. apply says_plainly_invoke.
Qed.

Lemma bound_by_binding h h' :
  docker h' = docker h → compose_file h' = compose_file h → bound h' = bound h.
Proof. unfold bound. by intros -> ->. Qed.

(** Past its guard the reload logs its line, and after it only what
    [down] and [up] say. *)
Lemma reload_until_up_says tool w :
  bound (self w) = true →
  ∃ added,
    trace (reload_until_up tool w).1
    = trace w ++ Logged Debug (service_name (self w) +:+ " service modified.") :: added
    ∧ forallb plain added = true.
Proof.
  intros Hb.
  assert (Hrest : respects says_plainly
            (down tool ;;;
             modify_self (λ h, let '(h', d) := _get_docker h in with_docker d h') ;;;
             up tool ;;;
             ret true)).
  { then_ says_plainly_trans; [apply says_plainly_down | intros _].
    then_ says_plainly_trans; [apply says_plainly_self | intros _].
    then_ says_plainly_trans; [apply says_plainly_up | intros _].
    here says_plainly_refl. }
  unfold reload_until_up. unfold bind at 1. unfold get_self.
  change (match docker (self w) with
          | Some _ => truthy (compose_file (self w))
          | None => false
          end) with (bound (self w)).
  rewrite Hb. unfold bind at 1. unfold logger, emit. cbn [negb]. cbv beta.
  set (w1 := with_trace _ w).
  destruct (Hrest w1) as (added & Heq & Hplain).
  exists added. split; [|exact Hplain].
  rewrite Heq. subst w1. simpl. by rewrite <- app_assoc.
Qed.

Lemma plain_not_reload_line h o : plain o = true → is_reload_line h o = false.
Proof. destruct o as [c|[] msg|t|e]; simpl; done. Qed.

Lemma reload_runs_app h a b :
  reload_runs h (a ++ b) = (reload_runs h a + reload_runs h b)%nat.
Proof. unfold reload_runs. by rewrite List.filter_app, length_app. Qed.

Lemma reload_runs_plain h l : forallb plain l = true → reload_runs h l = 0%nat.
Proof.
  unfold reload_runs. induction l as [|o l IH]; simpl; [done|].
  intros [Ho Hl]%andb_true_iff. rewrite (plain_not_reload_line h o Ho). auto.
Qed.

Lemma reload_runs_by_name h h' tr :
  service_name h' = service_name h → reload_runs h' tr = reload_runs h tr.
Proof. intros Hn. unfold reload_runs, is_reload_line. by rewrite Hn. Qed.

Lemma reload_until_up_runs tool w :
  reload_runs (self w) (trace (reload_until_up tool w).1)
  = one_more (self w) (reload_runs (self w) (trace w)).
Proof.
  unfold one_more. destruct (bound (self w)) eqn:Hb.
  - destruct (reload_until_up_says tool w Hb) as (added & -> & Hplain).
    rewrite reload_runs_app.
    change (Logged Debug (service_name (self w) +:+ " service modified.") :: added)
      with ([Logged Debug (service_name (self w) +:+ " service modified.")] ++ added).
    rewrite reload_runs_app, (reload_runs_plain _ added Hplain).
    unfold reload_runs at 2. simpl. rewrite String.eqb_refl. simpl. lia.
  - by rewrite reload_until_up_unbound.
Qed.

(** A timer thread that starts the reload adds one execution to those
    recorded, if the handler is bound. *)
Lemma enter_runs tool i w :
  reload_runs (self w) (trace (enter i (reload_until_up tool) w))
  = one_more (self w) (reload_runs (self w) (trace w)).
Proof.
  rewrite <- (reload_until_up_runs tool). unfold enter.
  destruct (reload_until_up tool w) as [w' [[]|e]]; simpl; try done.
  rewrite reload_runs_app. unfold reload_runs at 2. simpl. lia.
Qed.

Lemma elapse_armed_runs tool d T w :
  armed_until d w → clock w ≤ d → d ≤ T →
  reload_runs (self w) (trace (elapse tool T w))
  = one_more (self w) (reload_runs (self w) (trace w)).
Proof.
  intros (Hinv & i & o & Ht & Hi & Hlive & Hd) Hclock HT.
  assert (Hothers : ∀ j o', j ≠ i → timers w !! j = Some o' → live o' = false).
  { intros j o' Hne Hj. destruct (live o') eqn:Hl; [|done].
    specialize (Hinv j o' Hj Hl). congruence. }
  destruct (elapse_sole tool i o d T w Hi Hlive Hd Hothers Hclock HT) as [-> _].
  change (trace (with_clock T ?v)) with (trace v).
  change (self w) with (self (fired_at d i w)).
  rewrite enter_runs. unfold one_more. simpl.
  rewrite reload_runs_app. unfold reload_runs at 2 4. simpl.
  by rewrite Nat.add_0_r.
Qed.

(** When the one waiting timer has fired, the trace is the one a call of
    the reload at the deadline leaves. *)
Lemma elapse_armed_writes tool d T w :
  armed_until d w → clock w ≤ d → d ≤ T →
  trace (elapse tool T w) = trace (reloaded_at tool d w).
Proof.
  intros (Hinv & i & o & Ht & Hi & Hlive & Hd) Hclock HT.
  assert (Hothers : ∀ j o', j ≠ i → timers w !! j = Some o' → live o' = false).
  { intros j o' Hne Hj. destruct (live o') eqn:Hl; [|done].
    specialize (Hinv j o' Hj Hl). congruence. }
  destruct (elapse_sole tool i o d T w Hi Hlive Hd Hothers Hclock HT) as [-> _].
  change (trace (with_clock T ?v)) with (trace v).
  by apply enter_writes.
Qed.

(** ** Debounce *)

Lemma qualifying_by_name h h' e :
  service_name h' = service_name h → qualifying h' e = qualifying h e.
Proof. intros Hn. unfold qualifying, accepted. by rewrite Hn. Qed.

Lemma in_burst_by_name h h' ops :
  service_name h' = service_name h → wait_seconds h' = wait_seconds h →
  ∀ prev, in_burst h prev ops → in_burst h' prev ops.
Proof.
  intros Hn Hw. induction ops as [|o ops IH]; intros prev; simpl; [done|].
  destruct o as [| | | |t e|t|disk|t e|i]; try done.
  - rewrite (qualifying_by_name h h' e Hn), Hw. intros (? & ? & ?). auto.
  - rewrite (qualifying_by_name h h' e Hn), Hw. intros (? & ? & ?). auto.
  - apply IH.
Qed.

(** The same as [deliver_rearms], the event coming first at a tie. *)
Lemma deliver_first_rearms tool t e w :
  at_most_one_live w →
  (∀ i o, timers w !! i = Some o → due t o = false) →
  observer (self w) = Running →
  qualifying (self w) e = true →
  clock w ≤ t →
  step tool w (DeliverFirst t e) = rearmed (with_clock t w).
Proof.
  intros Hinv Hquiet Hobs Hq Hclock. unfold step.
  rewrite elapse_before_quiet by done. rewrite Z.max_r by done.
  change (observer (self (with_clock t w))) with (observer (self w)). rewrite Hobs.
  unfold run_thread. by rewrite on_any_event_qualifying.
Qed.

(** The burst goes on from an armed world: every further event re-arms
    before the timer is due, and the timer left at the end fires alone. *)
Lemma burst_from_armed tool T ops :
  ∀ w tprev,
    armed_until (tprev + wait_seconds (self w)) w →
    clock w = tprev →
    no_reload_running w →
    observer (self w) = Running →
    0 ≤ wait_seconds (self w) →
    in_burst (self w) tprev ops →
    burst_end tprev ops + wait_seconds (self w) ≤ T →
    fires (trace (run tool w (ops ++ [Elapse T])))
    = fires (trace w) ++ [burst_end tprev ops + wait_seconds (self w)]
    ∧ reload_runs (self w) (trace (run tool w (ops ++ [Elapse T])))
      = one_more (self w) (reload_runs (self w) (trace w))
    ∧ trace (run tool w (ops ++ [Elapse T]))
      = trace (reloaded_at tool (burst_end tprev ops + wait_seconds (self w)) w)
    ∧ idle (run tool w (ops ++ [Elapse T])).
Proof.
  induction ops as [|o ops IH]; intros w tprev Harmed Hclock Hnone Hobs Hwait Hin HT.
  - simpl in *.
    destruct (elapse_armed tool _ T w Harmed) as (Hidle & _ & Hfires & _); [lia..|].
    repeat split; [done| | |done].
    + apply (elapse_armed_runs tool _ T w Harmed); lia.
    + apply (elapse_armed_writes tool _ T w Harmed); lia.
  - assert (Hgo : ∀ t e,
        qualifying (self w) e = true → tprev ≤ t < tprev + wait_seconds (self w) →
        in_burst (self w) t ops →
        burst_end t ops + wait_seconds (self w) ≤ T →
        step tool w o = rearmed (with_clock t w) →
        fires (trace (run tool w ((o :: ops) ++ [Elapse T])))
        = fires (trace w) ++ [burst_end t ops + wait_seconds (self w)]
        ∧ reload_runs (self w) (trace (run tool w ((o :: ops) ++ [Elapse T])))
          = one_more (self w) (reload_runs (self w) (trace w))
        ∧ trace (run tool w ((o :: ops) ++ [Elapse T]))
          = trace (reloaded_at tool (burst_end t ops + wait_seconds (self w)) w)
        ∧ idle (run tool w ((o :: ops) ++ [Elapse T]))).
    { intros t e Hq Ht Hrest HT' Hstep.
      change (run tool w ((o :: ops) ++ [Elapse T]))
        with (run tool (step tool w o) (ops ++ [Elapse T])).
      rewrite Hstep. set (w1 := rearmed (with_clock t w)).
      assert (Harmed1 : armed_until (t + wait_seconds (self w1)) w1).
      { apply (rearmed_armed_until (with_clock t w)). by destruct Harmed. }
      assert (Hin1 : in_burst (self w1) t ops).
      { by apply (in_burst_by_name (self w)). }
      destruct (IH w1 t Harmed1 eq_refl Hnone Hobs Hwait Hin1 HT')
        as (Hf & Hr & Htr & Hidle).
      repeat split; [exact Hf | exact Hr | | exact Hidle].
      rewrite Htr. by apply reloaded_at_alike. }
    destruct o as [| | | |t e|t|disk|t e|i]; simpl in Hin, HT; try done.
    + destruct Hin as (Hq & Ht & Hrest). apply (Hgo t e); try done.
      apply deliver_rearms; [by destruct Harmed | | done | done | lia].
      eapply armed_not_due; [exact Harmed | lia].
    + destruct Hin as (Hq & Ht & Hrest). apply (Hgo t e); try done.
      apply deliver_first_rearms; [by destruct Harmed | | done | done | lia].
      eapply armed_not_due; [exact Harmed | lia].
    + change (run tool w ((Finish i :: ops) ++ [Elapse T]))
        with (run tool (step tool w (Finish i)) (ops ++ [Elapse T])).
      unfold step. rewrite finish_nothing by done.
      by apply (IH w tprev).
Qed.

(** C2, as amended.  A handler with no timer waiting and no reload in
    progress, whose observer runs, receives a burst of qualifying events:
    the first at [t0], every next one less than [wait_seconds] after the
    one before it.  Then, once time has passed the last event by
    [wait_seconds], exactly one timer has called the reload since the
    burst began, at the instant of the last event plus [wait_seconds];
    that call has executed the reload once if the handler is bound (and
    has returned at the guard if it is not); what has been observed since
    the burst began is that firing and what one call of
    [reload_service_compose] writes; and no timer is left waiting. *)
Theorem debounce_coalesces_outside_reload (tool : Tool) (w : World) (t0 : Z)
    (e0 : FileSystemEvent) (ops : list op) (T : Z) :
  idle w →
  no_reload_running w →
  observer (self w) = Running →
  0 ≤ wait_seconds (self w) →
  clock w ≤ t0 →
  qualifying (self w) e0 = true →
  in_burst (self w) t0 ops →
  burst_end t0 ops + wait_seconds (self w) ≤ T →
  fires (trace (run tool w (Deliver t0 e0 :: ops ++ [Elapse T])))
  = fires (trace w) ++ [burst_end t0 ops + wait_seconds (self w)]
  ∧ reload_runs (self w) (trace (run tool w (Deliver t0 e0 :: ops ++ [Elapse T])))
    = one_more (self w) (reload_runs (self w) (trace w))
  ∧ trace (run tool w (Deliver t0 e0 :: ops ++ [Elapse T]))
    = trace (reloaded_at tool (burst_end t0 ops + wait_seconds (self w)) w)
  ∧ idle (run tool w (Deliver t0 e0 :: ops ++ [Elapse T])).
Proof.
  intros Hidle Hnone Hobs Hwait Hclock Hq0 Hin HT.
  change (run tool w (Deliver t0 e0 :: ops ++ [Elapse T]))
    with (run tool (step tool w (Deliver t0 e0)) (ops ++ [Elapse T])).
  rewrite deliver_rearms;
    [| by apply idle_at_most_one_live | by apply idle_not_due | done..].
  set (w1 := rearmed (with_clock t0 w)).
  assert (Harmed1 : armed_until (t0 + wait_seconds (self w1)) w1).
  { apply (rearmed_armed_until (with_clock t0 w)). by apply idle_at_most_one_live. }
  assert (Hin1 : in_burst (self w1) t0 ops).
  { by apply (in_burst_by_name (self w)). }
  destruct (burst_from_armed tool T ops w1 t0 Harmed1 eq_refl Hnone Hobs Hwait Hin1 HT)
    as (Hf & Hr & Htr & Hidle1).
  repeat split; [exact Hf | exact Hr | | exact Hidle1].
  rewrite Htr. by apply reloaded_at_alike.
Qed.

Lemma debounce_coalesces_outside_reload_witness :
  fires (trace (run Sample.steady Sample.started_service
                  (Deliver 0 Sample.compose_modified
                   :: Case.three_changes ++ [Elapse 10])))
  = [4]
  ∧ reload_runs (self Sample.started_service)
      (trace (run Sample.steady Sample.started_service
                (Deliver 0 Sample.compose_modified
                 :: Case.three_changes ++ [Elapse 10])))
    = 1%nat
  ∧ calls (trace (run Sample.steady Sample.started_service
                    (Deliver 0 Sample.compose_modified
                     :: Case.three_changes ++ [Elapse 10])))
    = [Ps "com.docker.compose.project.config_files=/srv/foo/docker-compose.yaml";
       ContainerStop "c1"; ContainerRemove "c1";
       ContainerStop "c2"; ContainerRemove "c2";
       VolumePrune;
       ComposeUp ["/srv/foo/docker-compose.yaml"] true].
Proof.
  destruct (debounce_coalesces_outside_reload Sample.steady Sample.started_service 0
              Sample.compose_modified Case.three_changes 10)
    as (Hfires & Hruns & Htrace & _).
  - intros i o H. destruct i; discriminate H.
  - reflexivity.
  - reflexivity.
  - simpl. lia.
  - simpl. lia.
  - reflexivity.
  - simpl. repeat split; lia.
  - simpl. lia.
  - split; [exact Hfires|]. split; [exact Hruns|]. by rewrite Htrace.
Defined.

(** C2, counterexample.  The claim fails for a burst that begins while a
    reload is in progress.  The sample handler waits 2 ticks; a change at
    0 made its timer fire at 2, and that reload has not reached its last
    statement.  Changes at 3 and 4 follow, one tick apart, and the reload
    in progress ends between them: its [self.timer = None] makes the
    handler forget the timer armed at 3, so the change at 4 cancels
    nothing.  Both timers fire, at 5 and at 6, and the reload executes
    twice for one burst. *)
Lemma burst_over_reload_end_reloads_twice :
  idle Case.reload_in_progress
  ∧ reloading Case.reload_in_progress = [0%nat]
  ∧ observer (self Case.reload_in_progress) = Running
  ∧ qualifying (self Case.reload_in_progress) Sample.compose_modified = true
  ∧ in_burst (self Case.reload_in_progress) 3 Case.burst_over_reload_end
  ∧ burst_end 3 Case.burst_over_reload_end = 4
  ∧ fires (trace (run Sample.steady Case.reload_in_progress
                    (Deliver 3 Sample.compose_modified
                     :: Case.burst_over_reload_end ++ [Elapse 10])))
    = fires (trace Case.reload_in_progress) ++ [5; 6]
  ∧ reload_runs (self Case.reload_in_progress)
      (trace (run Sample.steady Case.reload_in_progress
                (Deliver 3 Sample.compose_modified
                 :: Case.burst_over_reload_end ++ [Elapse 10])))
    = S (S (reload_runs (self Case.reload_in_progress)
              (trace Case.reload_in_progress))).
Proof.
  split.
  { intros i o H. destruct i as [|[|i]]; [|discriminate H..].
    vm_compute in H. by injection H as <-. }
  repeat split; try reflexivity; simpl; lia.
Qed.

(** ** Lifting a relation from the methods to whole runs *)

Section Lift.

Variable tool : Tool.
Variable R : World → World → Prop.
Hypothesis R_refl : ∀ w, R w w.
Hypothesis R_trans : ∀ a b c, R a b → R b c → R a c.
Hypothesis R_start : respects R (start tool).
Hypothesis R_stop : respects R stop.
Hypothesis R_up : respects R (up tool).
Hypothesis R_down : respects R (down tool).
Hypothesis R_event : ∀ e, respects R (on_any_event e).
Hypothesis R_reload : respects R (reload_until_up tool).
Hypothesis R_last : respects R reload_last.
Hypothesis R_uncaught : ∀ w e, R w (with_trace (trace w ++ [Uncaught e]) w).
Hypothesis R_fired : ∀ w d i, R w (fired_at d i w).
Hypothesis R_reloading : ∀ w l, R w (with_reloading l w).
Hypothesis R_clock : ∀ w t, R w (with_clock t w).
Hypothesis R_fs : ∀ w disk, R w (with_fs disk w).

Lemma lift_thread m : respects R m → ∀ w, R w (run_thread m w).
Proof. intros Hm. by apply (respects_run_thread R R_trans). Qed.

Lemma lift_enter i w : R w (enter i (reload_until_up tool) w).
Proof.
  unfold enter. pose proof (R_reload w) as H.
  destruct (reload_until_up tool w) as [w' [[]|e]]; simpl in *.
  - eapply R_trans; [exact H | apply R_reloading].
  - exact H.
  - eapply R_trans; [exact H | apply R_uncaught].
Qed.

Lemma lift_fire_when ready i w : R w (fire_when tool ready i w).
Proof.
  destruct (fire_when_cases tool ready i w) as [-> | [d ->]]; [apply R_refl|].
  eapply R_trans; [apply R_fired | apply lift_enter].
Qed.

Lemma lift_pass ready ids : ∀ w, R w (foldl (λ w i, fire_when tool ready i w) w ids).
Proof.
  induction ids as [|i ids IH]; intros w; simpl; [apply R_refl|].
  eapply R_trans; [apply lift_fire_when | apply IH].
Qed.

Lemma lift_elapse t w : R w (elapse tool t w).
Proof. unfold elapse. eapply R_trans; [apply lift_pass | apply R_clock]. Qed.

Lemma lift_elapse_before t w : R w (elapse_before tool t w).
Proof. unfold elapse_before. eapply R_trans; [apply lift_pass | apply R_clock]. Qed.

Lemma lift_finish i w : R w (finish i w).
Proof.
  unfold finish. destruct (bool_decide _); [|apply R_refl].
  eapply R_trans; [apply R_reloading | by apply lift_thread].
Qed.

Lemma lift_step w o : R w (step tool w o).
Proof.
  destruct o as [| | | |t e|t|disk|t e|i]; unfold step.
  - by apply lift_thread.
  - by apply lift_thread.
  - by apply lift_thread.
  - by apply lift_thread.
  - destruct (observer (self (elapse tool t w))); try apply lift_elapse.
    eapply R_trans; [apply lift_elapse | apply lift_thread, R_event].
  - apply lift_elapse.
  - apply R_fs.
  - destruct (observer (self (elapse_before tool t w))); try apply lift_elapse_before.
    eapply R_trans; [apply lift_elapse_before | apply lift_thread, R_event].
  - apply lift_finish.
Qed.

Lemma lift_run ops : ∀ w, R w (run tool w ops).
Proof.
  induction ops as [|o ops IH]; intros w; simpl; [apply R_refl|].
  eapply R_trans; [apply lift_step | apply IH].
Qed.

End Lift.

(** ** What every step keeps *)

Lemma kept_refl w : kept w w.
Proof. split; auto using same_service_refl. Qed.

Lemma kept_trans a b c : kept a b → kept b c → kept a c.
Proof.
  intros [Hs1 Hu1] [Hs2 Hu2]. split; [eauto using same_service_trans|].
  intros Ha. destruct (Hu1 Ha) as [Hb Hc1]. destruct (Hu2 Hb) as [Hc Hc2].
  split; congruence.
Qed.

Lemma kept_intro w w' :
  same_service (self w) (self w') →
  docker (self w') = docker (self w) →
  calls (trace w') = calls (trace w) →
  kept w w'.
Proof. intros Hs Hd Hc. split; [done|]. intros H. split; congruence. Qed.

Lemma kept_observation w o :
  calls [o] = [] → kept w (with_trace (trace w ++ [o]) w).
Proof.
  intros Ho. apply kept_intro; simpl; auto using same_service_refl.
  by rewrite calls_app, Ho, app_nil_r.
Qed.

Lemma kept_logger lvl msg : respects kept (logger lvl msg).
Proof. intros w. by apply kept_observation. Qed.

Lemma kept_up tool : respects kept (up tool).
Proof.
  intros w. split.
  - destruct (logs_more_up tool w) as (added & -> & _). apply same_service_refl.
  - intros H. by rewrite up_without_client.
Qed.

Lemma kept_down tool : respects kept (down tool).
Proof.
  intros w. split.
  - destruct (logs_more_down tool w) as (added & -> & _). apply same_service_refl.
  - intros H. by rewrite down_without_client.
Qed.

Lemma kept_reload_until_up tool : respects kept (reload_until_up tool).
Proof.
  intros w. split.
  - apply (settled_service _ _ (settled_reload_until_up tool w)).
  - intros H. rewrite reload_until_up_unbound; [done|]. unfold bound. by rewrite H.
Qed.

Lemma kept_start tool : respects kept (start tool).
Proof.
  unfold start. apply respects_try_except; [apply kept_trans | |].
  - then_ kept_trans.
    + intros w. unfold observer_schedule_start.
      destruct (observer (self w)), (fs w (service_path (self w))); simpl;
        first [apply kept_refl | by apply kept_intro].
    + intros _. then_ kept_trans; [here kept_refl|].
      intros h. apply kept_logger.
  - then_ kept_trans; [here kept_refl|].
    intros h. then_ kept_trans; [apply kept_logger|].
    intros _. apply kept_down.
Qed.

Lemma kept_stop : respects kept stop.
Proof.
  unfold stop. then_ kept_trans; [apply kept_logger|].
  intros _ w. by apply kept_intro.
Qed.

Lemma kept_on_any_event e : respects kept (on_any_event e).
Proof.
  intros w. destruct (qualifying (self w) e) eqn:Hq.
  - rewrite on_any_event_qualifying by done. by apply kept_intro.
  - rewrite on_any_event_ignored by done. apply kept_refl.
Qed.

Lemma observer_fire_when tool ready i w :
  observer (self (fire_when tool ready i w)) = observer (self w).
Proof.
  destruct (fire_when_cases tool ready i w) as [-> | [d ->]]; [done|].
  apply (settled_observer (fired_at d i w)).
  apply settled_enter, settled_reload_until_up.
Qed.

Lemma observer_pass tool ready ids :
  ∀ w, observer (self (foldl (λ w i, fire_when tool ready i w) w ids))
       = observer (self w).
Proof.
  induction ids as [|i ids IH]; intros w; simpl; [done|].
  by rewrite IH, observer_fire_when.
Qed.

Lemma observer_elapse tool t w : observer (self (elapse tool t w)) = observer (self w).
Proof. unfold elapse. simpl. apply observer_pass. Qed.

Lemma kept_run tool ops w : kept w (run tool w ops).
Proof.
  apply (lift_run tool kept kept_refl kept_trans).
  - apply kept_start.
  - apply kept_stop.
  - apply kept_up.
  - apply kept_down.
  - apply kept_on_any_event.
  - apply kept_reload_until_up.
  - intros v. by apply kept_intro.
  - intros v e. by apply kept_observation.
  - intros v d i. apply kept_intro; simpl; [apply same_service_refl | done |].
    by rewrite calls_app, app_nil_r.
  - intros v l. by apply kept_intro.
  - intros v t. by apply kept_intro.
  - intros v disk. by apply kept_intro.
Qed.

(** No run changes the listing the handler resolves its compose file
    from: it is the one taken at construction. *)
Lemma run_keeps_listing tool w ops : files (self (run tool w ops)) = files (self w).
Proof. apply (kept_service _ _ (kept_run tool ops w)). Qed.

(** ** A handler without a compose file *)

(** C8.  A handler constructed over a folder that lists neither
    [docker-compose.yaml] nor [docker-compose.yml] has no client.  At any
    point of any run that begins at its construction, [up] and [down]
    return normally and leave the world, trace included, as it was, and no
    call has reached the tool. *)
Theorem no_binding_safety (tool : Tool) (disk : filesystem) (path : string)
    (wait : Z) (entries : list string) :
  disk path = Directory entries →
  "docker-compose.yaml" ∉ entries →
  "docker-compose.yml" ∉ entries →
  ∃ h, __init__ disk path wait = Returns h
       ∧ docker h = None
       ∧ ∀ t0 ops,
           up tool (run tool (boot disk t0 h) ops)
           = (run tool (boot disk t0 h) ops, Returns tt)
           ∧ down tool (run tool (boot disk t0 h) ops)
             = (run tool (boot disk t0 h) ops, Returns tt)
           ∧ calls (trace (run tool (boot disk t0 h) ops)) = [].
Proof.
  intros Hdir Hyaml Hyml.
  destruct (init_without_compose disk path wait entries Hdir Hyaml Hyml)
    as (h & Hinit & Hdocker & _).
  exists h. split; [done|]. split; [done|].
  intros t0 ops.
  destruct (kept_unbound _ _ (kept_run tool ops (boot disk t0 h)) Hdocker)
    as [Hstill Hcalls].
  split; [by apply up_without_client|].
  split; [by apply down_without_client | exact Hcalls].
Qed.

Lemma no_binding_safety_witness :
  ∃ h, __init__ Sample.without_compose "/srv/foo" 2 = Returns h
       ∧ docker h = None
       ∧ ∀ t0 ops,
           up Sample.steady (run Sample.steady (boot Sample.without_compose t0 h) ops)
           = (run Sample.steady (boot Sample.without_compose t0 h) ops, Returns tt)
           ∧ down Sample.steady (run Sample.steady (boot Sample.without_compose t0 h) ops)
             = (run Sample.steady (boot Sample.without_compose t0 h) ops, Returns tt)
           ∧ calls (trace (run Sample.steady (boot Sample.without_compose t0 h) ops)) = [].
Proof.
  apply (no_binding_safety Sample.steady Sample.without_compose "/srv/foo" 2
           [".env"; "README.md"]).
  - reflexivity.
  - apply mem_false_inv. reflexivity.
  - apply mem_false_inv. reflexivity.
Defined.

(** ** The methods that leave the client alone *)

Lemma same_client_trans a b c : same_client a b → same_client b c → same_client a c.
Proof. unfold same_client. congruence. Qed.

Lemma same_client_logs_more w w' : logs_more w w' → same_client w w'.
Proof. by intros (added & -> & _). Qed.

Lemma same_client_start tool : respects same_client (start tool).
Proof.
  unfold start. apply respects_try_except; [apply same_client_trans | |].
  - then_ same_client_trans.
    + intros w. unfold observer_schedule_start.
      by destruct (observer (self w)), (fs w (service_path (self w))).
    + intros _. then_ same_client_trans; [done|].
      intros h. eapply respects_weaken; [apply same_client_logs_more | apply logs_more_logger].
  - then_ same_client_trans; [done|].
    intros h. then_ same_client_trans.
    + eapply respects_weaken; [apply same_client_logs_more | apply logs_more_logger].
    + intros _. eapply respects_weaken; [apply same_client_logs_more | apply logs_more_down].
Qed.

Lemma same_client_on_any_event e : respects same_client (on_any_event e).
Proof.
  intros w. destruct (qualifying (self w) e) eqn:Hq.
  - by rewrite on_any_event_qualifying.
  - by rewrite on_any_event_ignored.
Qed.

(** C9.  On a handler without a client the reload returns at once and
    leaves the world as it is: no [down], no resolution, no [up].  The
    other methods, [start], [stop], [up], [down] and [on_any_event], never
    change the client, whatever it is.  So along every run, whatever the
    disk becomes and whatever events arrive, a handler without a client
    stays without one and no call reaches the tool. *)
Theorem absent_binding_is_permanent (tool : Tool) (w : World) :
  docker (self w) = None →
  reload_service_compose tool w = (w, Returns tt)
  ∧ (∀ v e,
       docker (self (run_thread (start tool) v)) = docker (self v)
       ∧ docker (self (run_thread stop v)) = docker (self v)
       ∧ docker (self (run_thread (up tool) v)) = docker (self v)
       ∧ docker (self (run_thread (down tool) v)) = docker (self v)
       ∧ docker (self (run_thread (on_any_event e) v)) = docker (self v))
  ∧ (∀ ops,
       docker (self (run tool w ops)) = None
       ∧ calls (trace (run tool w ops)) = calls (trace w)).
Proof.
  intros Hnone. split; [by apply reload_without_client|]. split.
  - intros v e.
    assert (Hthread : ∀ m, respects same_client m →
                           docker (self (run_thread m v)) = docker (self v)).
    { intros m Hm.
      by apply (respects_run_thread same_client same_client_trans m Hm). }
    split; [apply Hthread, same_client_start|].
    split; [reflexivity|].
    repeat split; apply Hthread.
    + eapply respects_weaken; [apply same_client_logs_more | apply logs_more_up].
    + eapply respects_weaken; [apply same_client_logs_more | apply logs_more_down].
    + apply same_client_on_any_event.
  - intros ops. apply (kept_unbound _ _ (kept_run tool ops w) Hnone).
Qed.

Lemma absent_binding_is_permanent_witness :
  fs (run Sample.steady Sample.unbound_service Sample.compose_file_appears) "/srv/foo"
  = Directory ["docker-compose.yaml"; ".env"]
  ∧ docker (self (run Sample.steady Sample.unbound_service Sample.compose_file_appears))
    = None
  ∧ calls (trace (run Sample.steady Sample.unbound_service Sample.compose_file_appears))
    = [].
Proof.
  split; [reflexivity|].
  exact (proj2 (proj2 (absent_binding_is_permanent Sample.steady Sample.unbound_service
                         eq_refl)) Sample.compose_file_appears).
Defined.

(** ** [stop] *)

Lemma step_stop tool w :
  step tool w DoStop
  = with_trace (trace w ++ [Logged Debug "Installed Service Handler stopped."])
      (with_self (with_observer Halted (self w)) w).
Proof. reflexivity. Qed.

(** C3, as amended.  [stop()] returns normally and halts the observer, so
    that no event delivered afterwards reaches [on_any_event]; it leaves
    the timers and the handler's timer as they are.  A handler armed until
    [d] is still armed until [d] when [stop()] has returned, and once time
    has passed [d] its timer has called the reload, at [d]. *)
Theorem stop_leaves_timer_pending (tool : Tool) (w : World) (d T : Z) :
  armed_until d w →
  clock w ≤ d →
  d ≤ T →
  (stop w).2 = Returns tt
  ∧ observer (self (step tool w DoStop)) = Halted
  ∧ timers (step tool w DoStop) = timers w
  ∧ timer (self (step tool w DoStop)) = timer (self w)
  ∧ armed_until d (step tool w DoStop)
  ∧ (∀ t e, step tool (step tool w DoStop) (Deliver t e)
            = elapse tool t (step tool w DoStop))
  ∧ fires (trace (run tool w [DoStop; Elapse T])) = fires (trace w) ++ [d].
Proof.
  intros Harmed Hclock HT.
  assert (Harmed1 : armed_until d (step tool w DoStop)) by exact Harmed.
  repeat split; try reflexivity; try apply Harmed1.
  - intros t e. unfold step at 1. rewrite observer_elapse. reflexivity.
  - change (run tool w [DoStop; Elapse T]) with (elapse tool T (step tool w DoStop)).
    destruct (elapse_armed tool d T _ Harmed1) as (_ & _ & Hfires & _); [done..|].
    rewrite Hfires, step_stop. simpl. by rewrite fires_app, app_nil_r.
Qed.

Lemma stop_leaves_timer_pending_witness :
  armed_until 2 (step Sample.steady Sample.armed_service DoStop)
  ∧ fires (trace (run Sample.steady Sample.armed_service [DoStop; Elapse 5])) = [2].
Proof.
  assert (Harmed : armed_until 2 Sample.armed_service).
  { split.
    - intros [|i] o H Hlive; [reflexivity | destruct i; discriminate H].
    - exists 0%nat, {| interval := 2; started := Some 0; finished := false |}.
      repeat split. }
  destruct (stop_leaves_timer_pending Sample.steady Sample.armed_service 2 5 Harmed)
    as (_ & _ & _ & _ & Hstill & _ & Hfires).
  - simpl. lia.
  - lia.
  - split; [exact Hstill | exact Hfires].
Defined.

(** ** What the sample runs show *)

(** C1.  The folder held [docker-compose.yaml] at construction; the file
    is then renamed to [docker-compose.yml] and the two events lead to one
    reload.  The reload resolves from [files], which still is the listing
    taken at construction: the handler stays bound to the file that is
    gone, and starts the compose on it. *)
Theorem reload_resolves_from_stale_listing :
  let w := run Sample.steady Sample.yaml_service Sample.rename_compose_file in
  fs w "/srv/foo" = Directory ["docker-compose.yml"; ".env"]
  ∧ files (self w) = ["docker-compose.yaml"; ".env"]
  ∧ compose_file (self w) = Some "docker-compose.yaml"
  ∧ docker (self w) = Some {| compose_files := ["/srv/foo/docker-compose.yaml"] |}
  ∧ trace w
    = [Logged Debug "foo Installed Service Handler started.";
       Fired 12;
       Logged Debug "foo service modified.";
       Logged Info "foo service compose stopped.";
       Called (Ps "com.docker.compose.project.config_files=/srv/foo/docker-compose.yaml");
       Called (ContainerStop "c1"); Called (ContainerRemove "c1");
       Called (ContainerStop "c2"); Called (ContainerRemove "c2");
       Called VolumePrune;
       Called (ComposeUp ["/srv/foo/docker-compose.yaml"] true);
       Logged Info "foo service compose started."].
Proof. vm_compute. repeat split. Qed.

(** C4.  Two containers run and the first cannot be stopped: [down]
    raises out of its loop, having neither removed the first container nor
    touched the second nor pruned the volumes; inside a reload the
    exception leaves the timer thread before [up] is reached. *)
Theorem down_propagates_tool_failure :
  (down Sample.stuck_container Sample.yaml_service).2
  = Raises (OrchestrationError "cannot stop c1")
  ∧ trace (down Sample.stuck_container Sample.yaml_service).1
    = [Logged Info "foo service compose stopped.";
       Called (Ps "com.docker.compose.project.config_files=/srv/foo/docker-compose.yaml");
       Called (ContainerStop "c1")]
  ∧ trace (run Sample.stuck_container Sample.yaml_service Sample.one_change)
    = [Logged Debug "foo Installed Service Handler started.";
       Fired 2;
       Logged Debug "foo service modified.";
       Logged Info "foo service compose stopped.";
       Called (Ps "com.docker.compose.project.config_files=/srv/foo/docker-compose.yaml");
       Called (ContainerStop "c1");
       Uncaught (OrchestrationError "cannot stop c1")].
Proof. vm_compute. repeat split. Qed.

(** C5.  The service root is [/srv/foo]; the event is on
    [/srv/foo/foo/docker-compose.yaml], one level down, in a folder that
    bears the name of the service.  [on_any_event] arms a timer for it and
    the reload runs. *)
Theorem nested_event_arms_timer :
  let started := run_thread (start Sample.steady) Sample.yaml_service in
  let w := (on_any_event Sample.nested_event started).1 in
  Path.parts "/srv/foo" = ["/"; "srv"; "foo"]
  ∧ Path.parts (src_path Sample.nested_event)
    = ["/"; "srv"; "foo"; "foo"; "docker-compose.yaml"]
  ∧ timer (self started) = None
  ∧ timer (self w) = Some 0%nat
  ∧ timers w = [{| interval := 2; started := Some 0; finished := false |}]
  ∧ fires (trace (run Sample.steady Sample.yaml_service
                       [DoStart; Deliver 0 Sample.nested_event; Elapse 5]))
    = [2].
Proof. vm_compute. repeat split. Qed.

(** C3, counterexample.  A handler is armed at instant 0 with a wait of
    2; [stop()] returns at instant 1; the pending reload executes at
    instant 2 all the same. *)
Lemma reload_runs_after_stop :
  let w := run Sample.steady Sample.yaml_service Sample.stop_while_armed in
  observer (self w) = Halted
  ∧ trace w
    = [Logged Debug "foo Installed Service Handler started.";
       Logged Debug "Installed Service Handler stopped.";
       Fired 2;
       Logged Debug "foo service modified.";
       Logged Info "foo service compose stopped.";
       Called (Ps "com.docker.compose.project.config_files=/srv/foo/docker-compose.yaml");
       Called (ContainerStop "c1"); Called (ContainerRemove "c1");
       Called (ContainerStop "c2"); Called (ContainerRemove "c2");
       Called VolumePrune;
       Called (ComposeUp ["/srv/foo/docker-compose.yaml"] true);
       Logged Info "foo service compose started."].
Proof. vm_compute. repeat split. Qed.

(** * Further properties *)

(** ** The caller's methods *)

Lemma calm_refl w : calm w w.
Proof. split; auto using same_service_refl. Qed.

Lemma calm_trans a b c : calm a b → calm b c → calm a c.
Proof.
  intros [] []. split; try congruence. eauto using same_service_trans.
Qed.

Lemma logs_more_calm w w' : logs_more w w' → calm w w'.
Proof.
  intros (added & -> & Hq). split; simpl; auto using same_service_refl.
  by rewrite fires_app, Hq, app_nil_r.
Qed.

Lemma calm_logger lvl msg : respects calm (logger lvl msg).
Proof. eapply respects_weaken; [apply logs_more_calm | apply logs_more_logger]. Qed.

Lemma calm_up tool : respects calm (up tool).
Proof. eapply respects_weaken; [apply logs_more_calm | apply logs_more_up]. Qed.

Lemma calm_down tool : respects calm (down tool).
Proof. eapply respects_weaken; [apply logs_more_calm | apply logs_more_down]. Qed.

Lemma calm_observer w o : calm w (with_self (with_observer o (self w)) w).
Proof. split; simpl; auto. by repeat split. Qed.

Lemma calm_start tool : respects calm (start tool).
Proof.
  unfold start. apply respects_try_except; [apply calm_trans | |].
  - then_ calm_trans.
    + intros w. unfold observer_schedule_start.
      destruct (observer (self w)), (fs w (service_path (self w))); simpl;
        first [apply calm_refl | apply calm_observer].
    + intros _. then_ calm_trans; [here calm_refl|].
      intros h. apply calm_logger.
  - then_ calm_trans; [here calm_refl|].
    intros h. then_ calm_trans; [apply calm_logger|].
    intros _. apply calm_down.
Qed.

Lemma calm_stop : respects calm stop.
Proof.
  unfold stop. then_ calm_trans; [apply calm_logger|].
  intros _ w. apply calm_observer.
Qed.

Lemma calm_uncaught w e : calm w (with_trace (trace w ++ [Uncaught e]) w).
Proof. apply logs_more_calm. by exists [Uncaught e]. Qed.

(** ** The binding is fixed at construction *)

Lemma resolved_transfer h h' :
  same_service h h' → docker h' = docker h → compose_file h' = compose_file h →
  resolved h → resolved h'.
Proof.
  intros (Hp & _ & _ & Hf) Hd Hc [Hrc Hrd]. unfold resolved.
  unfold _get_docker, _get_compose_file_name in *. simpl in *.
  rewrite Hd, Hc, Hp, Hf. by split.
Qed.

Lemma fixed_intro w w' :
  same_service (self w) (self w') →
  docker (self w') = docker (self w) →
  compose_file (self w') = compose_file (self w) →
  fixed w w'.
Proof. by intros ??? _. Qed.

Lemma fixed_refl w : fixed w w.
Proof. apply fixed_intro; auto using same_service_refl. Qed.

Lemma fixed_trans a b c : fixed a b → fixed b c → fixed a c.
Proof.
  intros Hab Hbc Ha. destruct (Hab Ha) as (Hs & Hd & Hc).
  destruct (Hbc (resolved_transfer _ _ Hs Hd Hc Ha)) as (Hs' & Hd' & Hc').
  repeat split; try congruence; destruct Hs as (?&?&?&?), Hs' as (?&?&?&?); congruence.
Qed.

Lemma calm_fixed w w' : calm w w' → fixed w w'.
Proof. intros []. by apply fixed_intro. Qed.

Lemma init_resolved disk path wait h :
  __init__ disk path wait = Returns h → resolved h.
Proof.
  unfold __init__, listdir.
  destruct (disk path) as [| |entries]; try discriminate.
  intros [= <-]. by split.
Qed.

Lemma fixed_rebind :
  respects fixed (modify_self (λ h, let '(h', d) := _get_docker h in with_docker d h')).
Proof.
  intros w [Hc Hd]. repeat split; [exact (eq_sym Hd) | exact (eq_sym Hc)].
Qed.

Lemma fixed_reload tool : respects fixed (reload_until_up tool).
Proof.
  unfold reload_until_up.
  then_ fixed_trans; [here fixed_refl|].
  intros h. destruct (negb _); [here fixed_refl|].
  then_ fixed_trans; [|intros _].
  { eapply respects_weaken; [apply calm_fixed | apply calm_logger]. }
  then_ fixed_trans; [|intros _].
  { eapply respects_weaken; [apply calm_fixed | apply calm_down]. }
  then_ fixed_trans; [apply fixed_rebind | intros _].
  then_ fixed_trans; [|intros _].
  { eapply respects_weaken; [apply calm_fixed | apply calm_up]. }
  here fixed_refl.
Qed.

Lemma fixed_reload_last : respects fixed reload_last.
Proof. intros w. apply fixed_intro; simpl; auto. by repeat split. Qed.

Lemma fixed_on_any_event e : respects fixed (on_any_event e).
Proof.
  intros w. destruct (qualifying (self w) e) eqn:Hq.
  - rewrite on_any_event_qualifying by done. apply fixed_intro; simpl; auto.
    by repeat split.
  - rewrite on_any_event_ignored by done. apply fixed_refl.
Qed.

Lemma fixed_run tool ops w : fixed w (run tool w ops).
Proof.
  apply (lift_run tool fixed fixed_refl fixed_trans).
  - eapply respects_weaken; [apply calm_fixed | apply calm_start].
  - eapply respects_weaken; [apply calm_fixed | apply calm_stop].
  - eapply respects_weaken; [apply calm_fixed | apply calm_up].
  - eapply respects_weaken; [apply calm_fixed | apply calm_down].
  - apply fixed_on_any_event.
  - apply fixed_reload.
  - apply fixed_reload_last.
  - intros v e. apply calm_fixed, calm_uncaught.
  - intros v d i. apply fixed_intro; simpl; auto using same_service_refl.
  - intros v l. apply fixed_intro; simpl; auto using same_service_refl.
  - intros v t. apply fixed_intro; simpl; auto using same_service_refl.
  - intros v disk. apply fixed_intro; simpl; auto using same_service_refl.
Qed.

(** X1.  The binding is decided at construction, once: along every run
    that begins with a constructed handler, whatever the disk becomes,
    whichever events arrive and however often the reload runs, the compose
    file, the client and the label [down] asks about are the ones
    construction resolved. *)
Theorem binding_fixed_at_construction (tool : Tool) (disk : filesystem)
    (path : string) (wait : Z) (h : Handler) (t0 : Z) (ops : list op) :
  __init__ disk path wait = Returns h →
  compose_file (self (run tool (boot disk t0 h) ops)) = compose_file h
  ∧ docker (self (run tool (boot disk t0 h) ops)) = docker h
  ∧ compose_label (self (run tool (boot disk t0 h) ops)) = compose_label h.
Proof.
  intros Hinit.
  destruct (fixed_run tool ops (boot disk t0 h) (init_resolved _ _ _ _ Hinit))
    as ((Hp & _) & Hd & Hc).
  repeat split; [done | done |].
  unfold compose_label. simpl in *. by rewrite Hp, Hc.
Qed.

Lemma binding_fixed_at_construction_witness :
  docker (self (run Sample.steady Sample.yaml_service Case.rename_then_remove))
  = Some {| compose_files := ["/srv/foo/docker-compose.yaml"] |}
  ∧ compose_label (self (run Sample.steady Sample.yaml_service Case.rename_then_remove))
    = "com.docker.compose.project.config_files=/srv/foo/docker-compose.yaml".
Proof.
  destruct (binding_fixed_at_construction Sample.steady Sample.with_yaml "/srv/foo" 2
              (Sample.constructed (__init__ Sample.with_yaml "/srv/foo" 2)) 0
              Case.rename_then_remove eq_refl) as (_ & Hd & Hl).
  split; [exact Hd | exact Hl].
Defined.

(** ** Tearing down *)

Lemma calls_called l : calls (map Called l) = l.
Proof. induction l as [|c l IH]; simpl; [done|]. by f_equal. Qed.

Lemma calls_logged lvl msg : calls [Logged lvl msg] = [].
Proof. reflexivity. Qed.

Lemma for_each_teardown tool cs :
  obliging tool →
  ∀ w, for_each cs (λ c,
         invoke (ContainerStop c) (λ tr, container_stop tool tr c) ;;;
         invoke (ContainerRemove c) (λ tr, container_remove tool tr c)) w
       = (with_trace (trace w ++ map Called (teardown cs)) w, Returns tt).
Proof.
  intros (Hstop & Hremove & _). induction cs as [|c cs IH]; intros w; simpl.
  - unfold ret. by rewrite app_nil_r, with_trace_same.
  - unfold bind at 1. unfold bind at 1. unfold invoke at 1. rewrite Hstop.
    unfold invoke at 1. simpl. rewrite Hremove, IH. simpl.
    by rewrite <- !app_assoc.
Qed.

Lemma down_obliging tool w client cs :
  docker (self w) = Some client →
  obliging tool →
  ps tool (trace w ++ [Logged Info (service_name (self w) +:+ " service compose stopped.")])
     (compose_label (self w)) = Returns cs →
  down tool w
  = (with_trace
       (trace w ++ Logged Info (service_name (self w) +:+ " service compose stopped.")
                :: Called (Ps (compose_label (self w)))
                :: map Called (teardown cs) ++ [Called VolumePrune]) w,
     Returns tt).
Proof.
  intros Hd Hob Hps. unfold down, bind at 1, get_self. rewrite Hd.
  unfold bind at 1, logger, emit. unfold bind at 1, invoke at 1. simpl.
  fold (compose_label (self w)). rewrite Hps.
  unfold bind at 1. rewrite (for_each_teardown tool cs Hob). simpl.
  unfold invoke. simpl. destruct Hob as (_ & _ & ->).
  by rewrite <- !app_assoc.
Qed.

(** X2.  On a tool that stops, removes and prunes without failing, [down]
    of a bound handler returns normally after exactly these calls: the
    listing of the containers labelled with the bound compose file, then
    for each container of the listing, in its order, stop followed by
    remove, then one prune of the volumes.  It reads nothing from the
    disk and changes nothing but the trace. *)
Theorem down_tears_down_in_order (tool : Tool) (w : World) (client : DockerClient)
    (cs : list container) :
  docker (self w) = Some client →
  obliging tool →
  ps tool (trace w ++ [Logged Info (service_name (self w) +:+ " service compose stopped.")])
     (compose_label (self w)) = Returns cs →
  (down tool w).2 = Returns tt
  ∧ calls (trace (down tool w).1)
    = calls (trace w) ++ Ps (compose_label (self w)) :: teardown cs ++ [VolumePrune]
  ∧ (∀ disk, (down tool (with_fs disk w)).2 = Returns tt
             ∧ trace (down tool (with_fs disk w)).1 = trace (down tool w).1)
  ∧ self (down tool w).1 = self w
  ∧ timers (down tool w).1 = timers w.
Proof.
  intros Hd Hob Hps.
  rewrite (down_obliging tool w client cs Hd Hob Hps). simpl.
  split; [done|]. split.
  { rewrite calls_app. simpl. by rewrite calls_app, calls_called. }
  split; [|done].
  intros disk. by rewrite (down_obliging tool (with_fs disk w) client cs Hd Hob Hps).
Qed.

Lemma steady_obliging : obliging Sample.steady.
Proof. by repeat split. Qed.

Lemma down_tears_down_in_order_witness :
  calls (trace (down Sample.steady Sample.yaml_service).1)
  = [Ps "com.docker.compose.project.config_files=/srv/foo/docker-compose.yaml";
     ContainerStop "c1"; ContainerRemove "c1";
     ContainerStop "c2"; ContainerRemove "c2";
     VolumePrune].
Proof.
  exact (proj1 (proj2 (down_tears_down_in_order Sample.steady Sample.yaml_service
                         {| compose_files := ["/srv/foo/docker-compose.yaml"] |}
                         ["c1"; "c2"] eq_refl steady_obliging eq_refl))).
Defined.

(** ** Reload and start, call by call *)

Lemma up_bound tool w client :
  docker (self w) = Some client →
  ∃ line,
    up tool w
    = (with_trace (trace w ++ [Called (ComposeUp (compose_files client) true); line]) w,
       Returns tt)
    ∧ calls [line] = [].
Proof.
  intros Hd. unfold up, bind, get_self. rewrite Hd.
  unfold try_except, bind, invoke, logger, emit, any_exception.
  destruct (compose_up tool (trace w) (compose_files client)) as [[]|e]; simpl;
    eexists; (split; [by rewrite <- app_assoc | reflexivity]).
Qed.

Lemma resolved_bound h client :
  resolved h → docker h = Some client →
  truthy (compose_file h) = true ∧ (_get_docker h).2 = Some client.
Proof.
  intros [Hc Hd] Hclient. rewrite Hd in Hclient. split; [|done].
  rewrite Hc. unfold _get_docker in Hclient. simpl in Hclient.
  by destruct (truthy (_get_compose_file_name h)).
Qed.

Lemma reload_obliging tool w client cs :
  resolved (self w) →
  docker (self w) = Some client →
  obliging tool →
  ps tool (trace w ++ [Logged Debug (service_name (self w) +:+ " service modified.");
                       Logged Info (service_name (self w) +:+ " service compose stopped.")])
     (compose_label (self w)) = Returns cs →
  ∃ w', reload_service_compose tool w = (w', Returns tt)
        ∧ calls (trace w')
          = calls (trace w)
            ++ Ps (compose_label (self w)) :: teardown cs
            ++ [VolumePrune; ComposeUp (compose_files client) true]
        ∧ docker (self w') = Some client
        ∧ timer (self w') = None.
Proof.
  intros Hres Hd Hob Hps.
  destruct (resolved_bound _ _ Hres Hd) as [Htruthy Hagain].
  unfold reload_service_compose, bind at 1, get_self. rewrite Hd, Htruthy. simpl.
  unfold bind at 1, logger, emit.
  set (w1 := with_trace (trace w ++ [Logged Debug (service_name (self w) +:+ " service modified.")]) w).
  assert (Hps1 : ps tool (trace w1 ++ [Logged Info (service_name (self w1)
                                                     +:+ " service compose stopped.")])
                    (compose_label (self w1)) = Returns cs).
  { subst w1. simpl. by rewrite <- app_assoc. }
  unfold bind at 1. rewrite (down_obliging tool w1 client cs Hd Hob Hps1).
  unfold bind at 1, modify_self at 1.
  match goal with |- context [bind (up tool) _ ?v] => set (w3 := v) end.
  assert (Hd3 : docker (self w3) = Some client).
  { subst w3 w1. simpl. unfold _get_docker in *. simpl in *. exact Hagain. }
  destruct (up_bound tool w3 client Hd3) as (line & Hup & Hline).
  unfold bind at 1. rewrite Hup. unfold modify_self.
  eexists. split; [reflexivity|]. split; [|split; [exact Hd3 | reflexivity]].
  cbn [trace with_self with_trace].
  assert (Htr : trace w3
                = trace w
                  ++ [Logged Debug (service_name (self w) +:+ " service modified.");
                      Logged Info (service_name (self w) +:+ " service compose stopped.");
                      Called (Ps (compose_label (self w)))]
                  ++ map Called (teardown cs) ++ [Called VolumePrune]).
  { subst w3 w1. cbn. by rewrite <- app_assoc. }
  rewrite Htr, !calls_app, calls_called.
  change (calls [Called (ComposeUp (compose_files client) true); line])
    with (ComposeUp (compose_files client) true :: calls [line]).
  rewrite Hline. simpl. rewrite <- !app_assoc. simpl. by rewrite <- app_assoc.
Qed.

(** X3.  A reload of a bound handler, on a tool that stops, removes and
    prunes without failing, returns normally whether or not the start of
    the compose fails.  The tool sees the calls of [down] followed by one
    start of the compose on the bound file; the handler keeps its client
    and its timer field is reset. *)
Theorem reload_is_down_then_up (tool : Tool) (w : World) (client : DockerClient)
    (cs : list container) :
  resolved (self w) →
  docker (self w) = Some client →
  obliging tool →
  ps tool (trace w ++ [Logged Debug (service_name (self w) +:+ " service modified.");
                       Logged Info (service_name (self w) +:+ " service compose stopped.")])
     (compose_label (self w)) = Returns cs →
  (reload_service_compose tool w).2 = Returns tt
  ∧ calls (trace (reload_service_compose tool w).1)
    = calls (trace w)
      ++ Ps (compose_label (self w)) :: teardown cs
      ++ [VolumePrune; ComposeUp (compose_files client) true]
  ∧ docker (self (reload_service_compose tool w).1) = Some client
  ∧ timer (self (reload_service_compose tool w).1) = None.
Proof.
  intros Hres Hd Hob Hps.
  destruct (reload_obliging tool w client cs Hres Hd Hob Hps) as (w' & -> & H).
  exact (conj eq_refl H).
Qed.

Lemma reload_is_down_then_up_witness :
  calls (trace (reload_service_compose Sample.steady Sample.yaml_service).1)
  = [Ps "com.docker.compose.project.config_files=/srv/foo/docker-compose.yaml";
     ContainerStop "c1"; ContainerRemove "c1";
     ContainerStop "c2"; ContainerRemove "c2";
     VolumePrune;
     ComposeUp ["/srv/foo/docker-compose.yaml"] true].
Proof.
  refine (proj1 (proj2 (reload_is_down_then_up Sample.steady Sample.yaml_service
                          {| compose_files := ["/srv/foo/docker-compose.yaml"] |}
                          ["c1"; "c2"] _ eq_refl steady_obliging eq_refl))).
  split; reflexivity.
Defined.

Lemma calls_down_added lvl msg c l d :
  calls (Logged lvl msg :: Called c :: map Called l ++ [Called d]) = c :: l ++ [d].
Proof.
  change (calls ([Logged lvl msg; Called c] ++ map Called l ++ [Called d]) = c :: l ++ [d]).
  by rewrite !calls_app, calls_called.
Qed.

Lemma start_missing tool w :
  observer (self w) = Unstarted →
  fs w (service_path (self w)) = Missing →
  start tool w
  = down tool
      (with_trace
         (trace w ++ [Logged Error ("Couldn't start a watcher for the "
                                    +:+ service_name (self w)
                                    +:+ " service, the folder no longer exists.")]) w).
Proof.
  intros Hobs Hgone.
  unfold start, try_except, bind, observer_schedule_start. by rewrite Hobs, Hgone.
Qed.

(** X4.  [start()] of a handler that was never started either watches or
    tears down, never both.  With the folder on disk it returns normally
    with the observer running and no call to the tool.  With the folder
    gone the observer stays unstarted and [start()] ends in [down]: a
    bound handler, on a tool that stops, removes and prunes without
    failing, has the containers of its compose file stopped and removed and
    the volumes pruned; a handler without a client calls nothing. *)
Theorem start_watches_or_tears_down (tool : Tool) (w : World) :
  observer (self w) = Unstarted →
  (fs w (service_path (self w)) ≠ Missing →
     (start tool w).2 = Returns tt
     ∧ observer (self (start tool w).1) = Running
     ∧ calls (trace (start tool w).1) = calls (trace w))
  ∧ (fs w (service_path (self w)) = Missing →
       observer (self (start tool w).1) = Unstarted
       ∧ (docker (self w) = None →
            (start tool w).2 = Returns tt
            ∧ calls (trace (start tool w).1) = calls (trace w))
       ∧ (∀ client cs,
            docker (self w) = Some client →
            obliging tool →
            ps tool
               (trace w ++ [Logged Error ("Couldn't start a watcher for the "
                                          +:+ service_name (self w)
                                          +:+ " service, the folder no longer exists.");
                            Logged Info (service_name (self w)
                                         +:+ " service compose stopped.")])
               (compose_label (self w)) = Returns cs →
            (start tool w).2 = Returns tt
            ∧ calls (trace (start tool w).1)
              = calls (trace w)
                ++ Ps (compose_label (self w)) :: teardown cs ++ [VolumePrune])).
Proof.
  intros Hobs. split.
  - intros Hthere. rewrite (start_with_folder tool w Hobs Hthere). simpl.
    repeat split. by rewrite calls_app, app_nil_r.
  - intros Hgone. rewrite (start_missing tool w Hobs Hgone).
    set (w1 := with_trace _ w). split; [|split].
    + destruct (logs_more_down tool w1) as (added & -> & _). exact Hobs.
    + intros Hnone. rewrite (down_without_client tool w1 Hnone). simpl.
      split; [done|]. by rewrite calls_app, app_nil_r.
    + intros client cs Hd Hob Hps.
      assert (Hps1 : ps tool (trace w1 ++ [Logged Info (service_name (self w1)
                                                         +:+ " service compose stopped.")])
                        (compose_label (self w1)) = Returns cs).
      { subst w1. cbn. by rewrite <- app_assoc. }
      rewrite (down_obliging tool w1 client cs Hd Hob Hps1).
      cbn [fst snd trace with_trace]. split; [done|].
      subst w1. cbn [trace with_trace self].
      rewrite calls_app, calls_app, calls_down_added. simpl.
      by rewrite app_nil_r.
Qed.

Lemma start_watches_or_tears_down_witness :
  observer (self (start Sample.steady Case.bound_folder_removed).1) = Unstarted
  ∧ calls (trace (start Sample.steady Case.bound_folder_removed).1)
    = [Ps "com.docker.compose.project.config_files=/srv/foo/docker-compose.yaml";
       ContainerStop "c1"; ContainerRemove "c1";
       ContainerStop "c2"; ContainerRemove "c2";
       VolumePrune].
Proof.
  destruct (start_watches_or_tears_down Sample.steady Case.bound_folder_removed eq_refl)
    as [_ Hgone].
  destruct (Hgone eq_refl) as (Hobs & _ & Hbound).
  split; [exact Hobs|].
  exact (proj2 (Hbound {| compose_files := ["/srv/foo/docker-compose.yaml"] |}
                  ["c1"; "c2"] eq_refl steady_obliging eq_refl)).
Defined.

(** ** Events far apart *)

Lemma calm_thread m : respects calm m → ∀ w, calm w (run_thread m w).
Proof.
  intros Hm. apply (respects_run_thread calm calm_trans); [done | apply calm_uncaught].
Qed.

Lemma calm_ignored e w :
  qualifying (self w) e = false → calm w (run_thread (on_any_event e) w).
Proof.
  intros Hq. pose proof (on_any_event_ignored e w Hq) as Hsame.
  unfold run_thread. destruct (on_any_event e w) as [w' [[]|x]]; simpl in Hsame; subst w'.
  - apply calm_refl.
  - apply calm_uncaught.
Qed.

Lemma rearmed_fresh w :
  length (timers (rearmed w)) = S (length (timers w))
  ∧ timer (self (rearmed w)) = Some (length (timers w)).
Proof.
  assert (Hlen : length (held_cancelled w) = length (timers w)).
  { unfold held_cancelled. destruct (timer (self w)); [apply length_alter | done]. }
  unfold rearmed. simpl. rewrite length_alter, length_app, Hlen. simpl.
  split; [lia | done].
Qed.

(** The thread of the timer the handler holds, alone in its wait, starts
    the reload when time reaches its deadline. *)
Lemma elapse_held tool d T i w :
  armed_until d w → timer (self w) = Some i → clock w ≤ d → d ≤ T →
  elapse tool T w = with_clock T (enter i (reload_until_up tool) (fired_at d i w)).
Proof.
  intros (Hinv & i0 & o & Ht & Hi & Hlive & Hd) Hheld Hclock HT.
  assert (i0 = i) as -> by congruence.
  assert (Hothers : ∀ j o', j ≠ i → timers w !! j = Some o' → live o' = false).
  { intros j o' Hne Hj. destruct (live o') eqn:Hl; [|done].
    specialize (Hinv j o' Hj Hl). congruence. }
  by destruct (elapse_sole tool i o d T w Hi Hlive Hd Hothers Hclock HT).
Qed.

(** The reload a timer thread started, once the thread has ended: no
    reload is in progress, and timers, clock, observer and trace are as
    the first part of the reload left them. *)
Lemma finish_after_enter tool i T v :
  no_reload_running v →
  no_reload_running (finish i (with_clock T (enter i (reload_until_up tool) v)))
  ∧ timers (finish i (with_clock T (enter i (reload_until_up tool) v))) = timers v
  ∧ trace (finish i (with_clock T (enter i (reload_until_up tool) v)))
    = trace (enter i (reload_until_up tool) v)
  ∧ clock (finish i (with_clock T (enter i (reload_until_up tool) v))) = T
  ∧ observer (self (finish i (with_clock T (enter i (reload_until_up tool) v))))
    = observer (self v).
Proof.
  unfold no_reload_running. intros Hnone.
  pose proof (reloading_reload_until_up tool v) as Hr.
  pose proof (settled_reload_until_up tool v) as Hs.
  unfold enter. destruct (reload_until_up tool v) as [v' [[]|e]]; simpl in Hr, Hs.
  - unfold finish. simpl. rewrite Hr, Hnone. simpl.
    rewrite bool_decide_eq_true_2 by (by apply list_elem_of_singleton).
    rewrite filter_cons_False by (intros H; by apply H).
    unfold run_thread. simpl.
    repeat split; [apply (settled_timers _ _ Hs) | apply (settled_observer _ _ Hs)].
  - rewrite finish_nothing by (unfold no_reload_running; simpl; congruence).
    simpl. repeat split; [congruence | apply (settled_timers _ _ Hs)
                          | apply (settled_observer _ _ Hs)].
  - rewrite finish_nothing by (unfold no_reload_running; simpl; congruence).
    simpl. repeat split; [congruence | apply (settled_timers _ _ Hs)
                          | apply (settled_observer _ _ Hs)].
Qed.

(** One event on its own: it arms a timer, the timer fires [wait_seconds]
    later, the reload runs to its end. *)
Lemma one_cycle tool w t e :
  idle w → no_reload_running w → observer (self w) = Running →
  0 ≤ wait_seconds (self w) → clock w ≤ t → qualifying (self w) e = true →
  idle (run tool w (one_by_one (length (timers w)) (wait_seconds (self w)) [(t, e)]))
  ∧ no_reload_running
      (run tool w (one_by_one (length (timers w)) (wait_seconds (self w)) [(t, e)]))
  ∧ observer (self (run tool w
        (one_by_one (length (timers w)) (wait_seconds (self w)) [(t, e)]))) = Running
  ∧ clock (run tool w (one_by_one (length (timers w)) (wait_seconds (self w)) [(t, e)]))
    = t + wait_seconds (self w)
  ∧ length (timers (run tool w
        (one_by_one (length (timers w)) (wait_seconds (self w)) [(t, e)])))
    = S (length (timers w))
  ∧ fires (trace (run tool w
        (one_by_one (length (timers w)) (wait_seconds (self w)) [(t, e)])))
    = fires (trace w) ++ [t + wait_seconds (self w)]
  ∧ reload_runs (self w) (trace (run tool w
        (one_by_one (length (timers w)) (wait_seconds (self w)) [(t, e)])))
    = one_more (self w) (reload_runs (self w) (trace w)).
Proof.
  intros Hidle Hnone Hobs Hwait Hclock Hq.
  set (wait := wait_seconds (self w)) in *. set (n := length (timers w)).
  change (run tool w (one_by_one n wait [(t, e)]))
    with (finish n (elapse tool (t + wait) (step tool w (Deliver t e)))).
  rewrite deliver_rearms;
    [| by apply idle_at_most_one_live | by apply idle_not_due | done..].
  set (w1 := rearmed (with_clock t w)).
  assert (Harmed1 : armed_until (t + wait) w1).
  { apply (rearmed_armed_until (with_clock t w)). by apply idle_at_most_one_live. }
  destruct (rearmed_fresh (with_clock t w)) as [Hlen Hheld].
  change (timers (with_clock t w)) with (timers w) in Hlen, Hheld.
  fold w1 n in Hlen, Hheld.
  rewrite (elapse_held tool (t + wait) (t + wait) n w1 Harmed1 Hheld);
    [|simpl; lia | lia].
  set (v := fired_at (t + wait) n w1).
  destruct (finish_after_enter tool n (t + wait) v Hnone)
    as (Hnone' & Htimers & Htrace & Hclock' & Hobs').
  pose proof (settled_enter n (reload_until_up tool) v (settled_reload_until_up tool))
    as Hs.
  repeat split; try done.
  - unfold idle. intros j o. rewrite Htimers. unfold v. simpl.
    destruct Harmed1 as (Hinv & i0 & o0 & Ht0 & Hi0 & _).
    destruct (decide (n = j)) as [<-|Hne].
    + rewrite list_lookup_alter_eq.
      destruct (alter _ _ _ !! n); [|discriminate].
      intros [= <-]. apply live_set_finished.
    + rewrite list_lookup_alter_ne by done. intros Hj.
      destruct (live o) eqn:Hl; [|done].
      specialize (Hinv j o Hj Hl). congruence.
  - rewrite Hobs'. exact Hobs.
  - rewrite Htimers. unfold v. simpl. rewrite length_alter. exact Hlen.
  - rewrite Htrace, (settled_fires _ _ Hs). unfold v. simpl. by rewrite fires_app.
  - rewrite Htrace, (reload_runs_by_name (self v) (self w)) by done.
    rewrite enter_runs. unfold one_more, bound, v. simpl.
    rewrite reload_runs_app.
    rewrite (reload_runs_by_name (self w) (with_timer _ _) (trace w)) by done.
    change (reload_runs _ [Fired _]) with 0%nat. by rewrite Nat.add_0_r.
Qed.

Lemma one_by_one_from tool wait rest :
  ∀ w t0 e0,
    wait_seconds (self w) = wait →
    idle w → no_reload_running w → observer (self w) = Running →
    resolved (self w) →
    0 ≤ wait →
    clock w ≤ t0 →
    qualifying (self w) e0 = true →
    Forall (λ te, qualifying (self w) te.2 = true) rest →
    apart wait t0 rest →
    fires (trace (run tool w (one_by_one (length (timers w)) wait ((t0, e0) :: rest))))
    = fires (trace w) ++ map (λ te, te.1 + wait) ((t0, e0) :: rest)
    ∧ reload_runs (self w)
        (trace (run tool w (one_by_one (length (timers w)) wait ((t0, e0) :: rest))))
      = (reload_runs (self w) (trace w)
         + (if bound (self w) then S (length rest) else 0))%nat.
Proof.
  induction rest as [|[t e] rest IH];
    intros w t0 e0 Hw Hidle Hnone Hobs Hres Hwait Hclock Hq0 Hq Hap;
    destruct (one_cycle tool w t0 e0)
      as (Hidle1 & Hnone1 & Hobs1 & Hclock1 & Hlen1 & Hf1 & Hr1);
    try done; try lia; rewrite Hw in *.
  - split; [done|]. rewrite Hr1. unfold one_more. simpl.
    destruct (bound (self w)); lia.
  - simpl in Hap. destruct Hap as [Ht Hap].
    apply Forall_cons in Hq as [Hqe Hq]. simpl in Hqe.
    set (w1 := run tool w (one_by_one (length (timers w)) wait [(t0, e0)])) in *.
    change (run tool w (one_by_one (length (timers w)) wait ((t0, e0) :: (t, e) :: rest)))
      with (run tool w1 (one_by_one (S (length (timers w))) wait ((t, e) :: rest))).
    rewrite <- Hlen1.
    destruct (fixed_run tool (one_by_one (length (timers w)) wait [(t0, e0)]) w Hres)
      as (Hsame & Hd & Hc).
    fold w1 in Hsame, Hd, Hc.
    pose proof Hsame as (_ & Hname & Hwait1 & _).
    destruct (IH w1 t e) as [Hf Hr]; try done.
    + congruence.
    + by apply (resolved_transfer (self w)).
    + lia.
    + rewrite <- Hqe. by apply qualifying_by_name.
    + eapply Forall_impl; [exact Hq|]. intros te Hte.
      rewrite <- Hte. by apply qualifying_by_name.
    + split.
      * rewrite Hf, Hf1. change (map ?f ((t0, e0) :: ?l)) with ((t0 + wait) :: map f l).
        by rewrite <- app_assoc.
      * rewrite <- (reload_runs_by_name (self w) (self w1)) by done.
        rewrite Hr, (reload_runs_by_name (self w) (self w1)) by done.
        rewrite Hr1, (bound_by_binding _ _ Hd Hc). unfold one_more. simpl.
        destruct (bound (self w)); lia.
Qed.

(** X6.  No change is lost.  A resolved handler with no timer waiting
    and no reload in progress, whose observer runs, receives qualifying
    events one by one: each comes more than [wait_seconds] after the one
    before it, and the reload it causes has ended before the next one
    arrives.  Then every event gets a call of the reload of its own,
    [wait_seconds] after it, in the order of the events, and each of
    these calls executes the reload if the handler is bound. *)
Theorem events_apart_reload_each (tool : Tool) (w : World) (t0 : Z)
    (e0 : FileSystemEvent) (rest : list (Z * FileSystemEvent)) :
  idle w →
  no_reload_running w →
  observer (self w) = Running →
  resolved (self w) →
  0 ≤ wait_seconds (self w) →
  clock w ≤ t0 →
  qualifying (self w) e0 = true →
  Forall (λ te, qualifying (self w) te.2 = true) rest →
  apart (wait_seconds (self w)) t0 rest →
  fires (trace (run tool w
    (one_by_one (length (timers w)) (wait_seconds (self w)) ((t0, e0) :: rest))))
  = fires (trace w)
    ++ map (λ te, te.1 + wait_seconds (self w)) ((t0, e0) :: rest)
  ∧ reload_runs (self w) (trace (run tool w
      (one_by_one (length (timers w)) (wait_seconds (self w)) ((t0, e0) :: rest))))
    = (reload_runs (self w) (trace w)
       + (if bound (self w) then S (length rest) else 0))%nat.
Proof.
  intros Hidle Hnone Hobs Hres Hwait Hclock Hq0 Hq Hap.
  by apply (one_by_one_from tool (wait_seconds (self w)) rest w t0 e0).
Qed.

Lemma events_apart_reload_each_witness :
  fires (trace (run Sample.steady Sample.started_service
    (one_by_one 0 2 [(0, Sample.compose_modified); (3, Sample.compose_modified);
                     (7, Sample.compose_modified)])))
  = [2; 5; 9]
  ∧ reload_runs (self Sample.started_service)
      (trace (run Sample.steady Sample.started_service
        (one_by_one 0 2 [(0, Sample.compose_modified); (3, Sample.compose_modified);
                         (7, Sample.compose_modified)])))
    = 3%nat.
Proof.
  refine (events_apart_reload_each Sample.steady Sample.started_service 0
            Sample.compose_modified
            [(3, Sample.compose_modified); (7, Sample.compose_modified)]
            _ _ _ _ _ _ _ _ _).
  - intros i o H. destruct i; discriminate H.
  - reflexivity.
  - reflexivity.
  - split; reflexivity.
  - simpl. lia.
  - simpl. lia.
  - reflexivity.
  - repeat constructor.
  - simpl. lia.
Defined.

(** ** Events of no concern *)

(** What a step without a qualifying event leaves alone. *)
Lemma quiet_step tool w o :
  idle w → quiet_op (self w) o →
  timers (step tool w o) = timers w
  ∧ fires (trace (step tool w o)) = fires (trace w)
  ∧ service_name (self (step tool w o)) = service_name (self w).
Proof.
  intros Hidle Hquiet.
  assert (Hcalm : ∀ v v', calm v v' →
            timers v' = timers v ∧ fires (trace v') = fires (trace v)
            ∧ service_name (self v') = service_name (self v)).
  { intros v v' [Hs _ _ _ Ht _ _ Hf]. repeat split; try done.
    by destruct Hs as (_ & ? & _). }
  destruct o as [| | | |t e|t|disk|t e|i]; unfold step.
  - apply Hcalm, calm_thread, calm_start.
  - apply Hcalm, calm_thread, calm_stop.
  - apply Hcalm, calm_thread, calm_up.
  - apply Hcalm, calm_thread, calm_down.
  - rewrite (elapse_quiet tool t w (idle_not_due w t Hidle)).
    set (v := with_clock (Z.max (clock w) t) w).
    destruct (observer (self v)); try by repeat split.
    exact (Hcalm v _ (calm_ignored e v Hquiet)).
  - rewrite (elapse_quiet tool t w (idle_not_due w t Hidle)). by repeat split.
  - by repeat split.
  - rewrite (elapse_before_quiet tool t w (idle_not_due w t Hidle)).
    set (v := with_clock (Z.max (clock w) t) w).
    destruct (observer (self v)); try by repeat split.
    exact (Hcalm v _ (calm_ignored e v Hquiet)).
  - destruct (settled_finish i w) as [Ht _ _ (_ & Hn & _) _ _ Hf]. by repeat split.
Qed.

Lemma quiet_run tool ops :
  ∀ w, idle w → Forall (quiet_op (self w)) ops →
       timers (run tool w ops) = timers w
       ∧ fires (trace (run tool w ops)) = fires (trace w).
Proof.
  induction ops as [|o ops IH]; intros w Hidle Hq; simpl; [done|].
  apply Forall_cons in Hq as [Ho Hq].
  destruct (quiet_step tool w o Hidle Ho) as (Ht & Hf & Hn).
  destruct (IH (step tool w o)) as [Ht' Hf'].
  - intros i x. rewrite Ht. apply Hidle.
  - eapply Forall_impl; [exact Hq|]. intros [] H; try done;
      simpl in *; by rewrite (qualifying_by_name (self w) _ e Hn).
  - split; congruence.
Qed.

(** X7.  Events of no concern never cause a reload.  From a world in
    which no timer waits, a run whose delivered events are all rejected by
    the filter of [on_any_event] (whatever else the run does: calls of
    [start], [stop], [up], [down], time passing, changes of the disk)
    arms no timer and fires no reload. *)
Theorem quiet_events_never_reload (tool : Tool) (w : World) (ops : list op) :
  idle w →
  Forall (quiet_op (self w)) ops →
  timers (run tool w ops) = timers w
  ∧ fires (trace (run tool w ops)) = fires (trace w).
Proof. intros Hidle Hq. by apply quiet_run. Qed.

Lemma quiet_events_never_reload_witness :
  timers (run Sample.steady Sample.started_service Case.idle_chatter) = []
  ∧ fires (trace (run Sample.steady Sample.started_service Case.idle_chatter)) = [].
Proof.
  apply (quiet_events_never_reload Sample.steady Sample.started_service Case.idle_chatter).
  - intros i o H. destruct i; discriminate H.
  - repeat constructor.
Defined.

(** ** Paths *)

Lemma split_nonempty sep s : ∃ x xs, Str.split sep s = x :: xs.
Proof.
  induction s as [|c s (x & xs & IH)]; simpl; [by eauto|].
  destruct (Ascii.eqb c sep); [by eauto|]. rewrite IH. by eauto.
Qed.

Lemma split_app_sep sep a b :
  Str.split sep (a +:+ String sep b) = Str.split sep a ++ Str.split sep b.
Proof.
  induction a as [|c a IH]; simpl.
  - by rewrite Ascii.eqb_refl.
  - destruct (Ascii.eqb c sep); [by rewrite IH|].
    rewrite IH. by destruct (split_nonempty sep a) as (x & xs & ->).
Qed.

Lemma split_slashless f : slashless f = true → Str.split Path.slash f = [f].
Proof.
  induction f as [|c f IH]; simpl; [done|].
  intros [Hc Hf]%andb_true_iff. apply negb_true_iff in Hc.
  by rewrite Hc, (IH Hf).
Qed.

Lemma split_slash_cons r :
  Str.split Path.slash (String Path.slash r) = "" :: Str.split Path.slash r.
Proof. reflexivity. Qed.

Lemma filter_component_empty l :
  filter (λ x, component x) ("" :: l) = filter (λ x, component x) l.
Proof. apply filter_cons_False. intros []. Qed.

(** The components of a path are the pieces between its slashes, less the
    empty ones and the dots: the root takes no part in them. *)
Lemma tail_filter p :
  Path.tail p = filter (λ x, component x) (Str.split Path.slash p).
Proof.
  unfold Path.tail, Path.splitroot.
  destruct p as [|c1 r1]; [done|].
  destruct (Ascii.eqb c1 Path.slash) eqn:E1; [|done].
  apply Ascii.eqb_eq in E1. subst c1.
  rewrite split_slash_cons, filter_component_empty.
  destruct r1 as [|c2 r2]; [done|].
  destruct (Ascii.eqb c2 Path.slash) eqn:E2; [|done].
  apply Ascii.eqb_eq in E2. subst c2.
  destruct r2 as [|c3 r3].
  - by rewrite split_slash_cons, filter_component_empty.
  - destruct (Ascii.eqb c3 Path.slash) eqn:E3; [done|].
    by rewrite split_slash_cons, filter_component_empty.
Qed.

Lemma last2_snoc2 {A} (l : list A) a b : Str.last2 (l ++ [a; b]) = Some a.
Proof. unfold Str.last2. by rewrite rev_app_distr. Qed.

Lemma parts_snoc p : ∃ pre, Path.parts p = pre ++ Path.tail p.
Proof.
  unfold Path.parts. destruct (Str.nonempty (Path.splitroot p).1).
  - by exists [(Path.splitroot p).1].
  - by exists [].
Qed.

(** Below a folder whose last piece is a component, a file named by a
    slash-free component has that name and that parent. *)
Lemma child_path p n f :
  last (Str.split Path.slash p) = Some n →
  component n = true → component f = true → slashless f = true →
  Path.name (p +:+ "/" +:+ f) = f
  ∧ Str.last2 (Path.parts (p +:+ "/" +:+ f)) = Some n.
Proof.
  intros Hlast Hn Hf Hslash.
  apply last_Some in Hlast as [init Hinit].
  assert (Htail : Path.tail (p +:+ "/" +:+ f)
                  = filter (λ x, component x) init ++ [n; f]).
  { rewrite tail_filter.
    change (p +:+ "/" +:+ f) with (p +:+ String Path.slash f).
    rewrite split_app_sep, Hinit, (split_slashless f Hslash), !filter_app.
    rewrite <- app_assoc. f_equal.
    rewrite (filter_cons_True _ n) by (by rewrite Hn).
    rewrite (filter_cons_True _ f) by (by rewrite Hf).
    done. }
  split.
  - unfold Path.name, Str.last1. rewrite Htail.
    change [n; f] with ([n] ++ [f]). by rewrite app_assoc, last_snoc.
  - destruct (parts_snoc (p +:+ "/" +:+ f)) as [pre ->].
    by rewrite Htail, app_assoc, last2_snoc2.
Qed.

Lemma accepted_file_shape f :
  f ∈ ACCEPTED_FILES → component f = true ∧ slashless f = true.
Proof.
  unfold ACCEPTED_FILES.
  rewrite !elem_of_cons, elem_of_nil. intros [-> | [-> | [-> | []]]]; by split.
Qed.

Lemma init_service_name disk path wait h :
  __init__ disk path wait = Returns h →
  service_path h = path
  ∧ last (Str.split Path.slash path) = Some (service_name h).
Proof.
  unfold __init__, listdir.
  destruct (disk path) as [| |entries]; try discriminate.
  intros [= <-]. simpl. split; [done|].
  unfold Str.last1. by destruct (split_nonempty Path.slash path) as (x & xs & ->);
    destruct (last (x :: xs)) eqn:E; [|apply last_None in E].
Qed.

(** X8.  A change directly under the service folder is seen.  When the
    last piece of the service path is a proper name (not empty, as after a
    trailing slash, and not a dot), every event of an accepted kind on one
    of the three accepted files placed directly in the folder reaches the
    re-arming of the timer: [on_any_event] returns normally and leaves the
    handler armed with a fresh timer. *)
Theorem first_level_event_rearms (disk : filesystem) (path : string) (wait : Z)
    (h : Handler) (f kind : string) (w : World) :
  __init__ disk path wait = Returns h →
  component (service_name h) = true →
  f ∈ ACCEPTED_FILES →
  kind ∈ ACCEPTED_EVENTS →
  service_name (self w) = service_name h →
  on_any_event {| is_directory := false;
                  src_path := path +:+ "/" +:+ f;
                  event_type := kind |} w
  = (rearmed w, Returns tt).
Proof.
  intros Hinit Hn Hf Hkind Hw.
  destruct (init_service_name _ _ _ _ Hinit) as [_ Hlast].
  destruct (accepted_file_shape f Hf) as [Hcomp Hslash].
  destruct (child_path path (service_name h) f Hlast Hn Hcomp Hslash) as [Hname Hparent].
  apply on_any_event_qualifying. apply qualifying_spec. simpl.
  rewrite Hname, Hparent, Hw. done.
Qed.

Lemma first_level_event_rearms_witness :
  on_any_event {| is_directory := false;
                  src_path := "/srv/foo" +:+ "/" +:+ ".env";
                  event_type := "deleted" |} Sample.started_service
  = (rearmed Sample.started_service, Returns tt).
Proof.
  apply (first_level_event_rearms Sample.with_yaml "/srv/foo" 2
           (Sample.constructed (__init__ Sample.with_yaml "/srv/foo" 2))
           ".env" "deleted" Sample.started_service).
  - reflexivity.
  - reflexivity.
  - apply mem_true_inv. reflexivity.
  - apply mem_true_inv. reflexivity.
  - reflexivity.
Defined.

(** ** The name of the service *)

Lemma last2_elem {A} (l : list A) x : Str.last2 l = Some x → x ∈ l.
Proof.
  unfold Str.last2. destruct (rev l) as [|a [|b r]] eqn:E; try discriminate.
  intros [= <-]. apply list_elem_of_In, in_rev. rewrite E. right. by left.
Qed.

Lemma splitroot_root p :
  (Path.splitroot p).1 = "" ∨ (Path.splitroot p).1 = "/" ∨ (Path.splitroot p).1 = "//".
Proof.
  unfold Path.splitroot. destruct p as [|c1 [|c2 [|c3 r]]];
    repeat (match goal with |- context [Ascii.eqb ?a ?b] => destruct (Ascii.eqb a b) end);
    simpl; auto.
Qed.

Lemma parts_component p x : x ∈ Path.parts p → component x = true.
Proof.
  unfold Path.parts.
  assert (Htail : x ∈ Path.tail p → component x = true).
  { rewrite tail_filter. intros [H _]%list_elem_of_filter. by apply Is_true_true. }
  destruct (Str.nonempty (Path.splitroot p).1) eqn:Hroot; [|done].
  intros [->|Hin]%elem_of_cons; [|by apply Htail].
  destruct (splitroot_root p) as [H | [H | H]]; rewrite H in *; done.
Qed.

Lemma nameless_never_qualifies h e :
  component (service_name h) = false → qualifying h e = false.
Proof.
  intros Hn. destruct (qualifying h e) eqn:Hq; [|done].
  apply qualifying_spec in Hq as (_ & _ & Hparent & _).
  apply last2_elem, parts_component in Hparent. congruence.
Qed.

Lemma trailing_slash_name disk dir wait h :
  __init__ disk (dir +:+ "/") wait = Returns h → service_name h = "".
Proof.
  intros Hinit. destruct (init_service_name _ _ _ _ Hinit) as [_ Hlast].
  change (dir +:+ "/") with (dir +:+ String Path.slash "") in Hlast.
  rewrite split_app_sep in Hlast. simpl in Hlast.
  rewrite last_snoc in Hlast. by injection Hlast.
Qed.

(** X9.  A service path written with a trailing slash makes the handler
    deaf.  Its service name is the empty string, which is the parent of no
    path, so no event ever passes the filter: along every run from
    construction no timer is created and no reload fires. *)
Theorem trailing_slash_never_reloads (tool : Tool) (disk : filesystem) (dir : string)
    (wait : Z) (h : Handler) (t0 : Z) (ops : list op) :
  __init__ disk (dir +:+ "/") wait = Returns h →
  service_name h = ""
  ∧ (∀ e, qualifying h e = false)
  ∧ timers (run tool (boot disk t0 h) ops) = []
  ∧ fires (trace (run tool (boot disk t0 h) ops)) = [].
Proof.
  intros Hinit. pose proof (trailing_slash_name _ _ _ _ Hinit) as Hname.
  assert (Hdeaf : ∀ e, qualifying h e = false).
  { intros e. apply nameless_never_qualifies. by rewrite Hname. }
  split; [done|]. split; [done|].
  apply (quiet_run tool ops (boot disk t0 h)).
  - intros i o H. destruct i; discriminate H.
  - apply Forall_forall. intros [] _; simpl; auto.
Qed.

Lemma trailing_slash_never_reloads_witness :
  service_name (Sample.constructed (__init__ Case.slash_disk "/srv/foo/" 2)) = ""
  ∧ fires (trace (run Sample.steady
                    (boot Case.slash_disk 0
                       (Sample.constructed (__init__ Case.slash_disk "/srv/foo/" 2)))
                    Case.changes_under_slash))
    = [].
Proof.
  destruct (trailing_slash_never_reloads Sample.steady Case.slash_disk "/srv/foo" 2
              (Sample.constructed (__init__ Case.slash_disk "/srv/foo/" 2)) 0
              Case.changes_under_slash eq_refl) as (Hname & _ & _ & Hfires).
  split; [exact Hname | exact Hfires].
Defined.

Lemma split_last_shape p :
  ∃ init n,
    Str.split Path.slash p = init ++ [n]
    ∧ slashless n = true
    ∧ (init = [] → p = n)
    ∧ (init ≠ [] → ∃ d, p = d +:+ "/" +:+ n).
Proof.
  induction p as [|c p (init & n & Hsplit & Hsl & Hnil & Hcons)].
  - exists [], "". by repeat split.
  - simpl. destruct (Ascii.eqb c Path.slash) eqn:Hc.
    + apply Ascii.eqb_eq in Hc. subst c.
      exists ("" :: init), n. rewrite Hsplit. repeat split; [done..|].
      intros _. destruct init as [|x init].
      * exists "". by rewrite (Hnil eq_refl).
      * destruct Hcons as [d ->]; [done|]. by exists (String Path.slash d).
    + rewrite Hsplit. destruct init as [|x init]; simpl.
      * exists [], (String c n). simpl. rewrite Hc, Hsl. repeat split; [|done].
        intros _. by rewrite (Hnil eq_refl).
      * exists (String c x :: init), n. repeat split; [done..|].
        intros _. destruct Hcons as [d ->]; [done|]. by exists (String c d).
Qed.

(** X10.  The service name is what follows the last slash of the service
    path: it holds no slash, and the path is either the name alone or a
    directory part, a slash, and the name. *)
Theorem service_name_is_last_segment (disk : filesystem) (path : string) (wait : Z)
    (h : Handler) :
  __init__ disk path wait = Returns h →
  slashless (service_name h) = true
  ∧ (path = service_name h ∨ ∃ dir, path = dir +:+ "/" +:+ service_name h).
Proof.
  intros Hinit. destruct (init_service_name _ _ _ _ Hinit) as [_ Hlast].
  destruct (split_last_shape path) as (init & n & Hsplit & Hsl & Hnil & Hcons).
  rewrite Hsplit, last_snoc in Hlast. injection Hlast as <-.
  split; [done|]. destruct init as [|x init]; [left; by apply Hnil | right; by apply Hcons].
Qed.

Lemma service_name_is_last_segment_witness :
  slashless "foo" = true
  ∧ ("/srv/foo" = "foo" ∨ ∃ dir, "/srv/foo" = dir +:+ "/" +:+ "foo").
Proof.
  exact (service_name_is_last_segment Sample.with_yaml "/srv/foo" 2
           (Sample.constructed (__init__ Sample.with_yaml "/srv/foo" 2)) eq_refl).
Defined.

(** ** What construction fixes *)

(** X11.  The service path, the service name, the wait and the listing of
    the folder are set by the constructor and by nothing else: at the end
    of every run, from every world, they are what they were at its
    beginning, whatever has happened to the disk in between. *)
Theorem construction_fields_never_change (tool : Tool) (w : World) (ops : list op) :
  service_path (self (run tool w ops)) = service_path (self w)
  ∧ service_name (self (run tool w ops)) = service_name (self w)
  ∧ wait_seconds (self (run tool w ops)) = wait_seconds (self w)
  ∧ files (self (run tool w ops)) = files (self w).
Proof. exact (kept_service _ _ (kept_run tool ops w)). Qed.
